(** * A work-stealing thread pool: the bounded blocking deque, the pool
      and the convolution tasks run on it

    Shallow embedding of [src/core/thread_safe_deque.hpp],
    [src/core/thread_pool.hpp] and [convolution.hpp], with the kernels of
    [main.cpp].

    - Module [Deque] embeds [ThreadSafeDeque<T>].  Every member function
      takes [mut_] on entry and releases it on return, so a call is one
      critical section: a function of the protected state.  A critical
      section is written in a small monad that mirrors the statements of
      the C++ body.  [cv.wait(lock, pred)] returns only in a state where
      [pred] holds, with the lock held; a call whose predicate is false is
      [Blocked].  The notifications a call issues are part of its outcome.
    - Module [Pool] embeds [ThreadPool]: the constructor, [submit],
      [get_random], the [worker] loop, the destructor and the destruction
      of the members that follows it, as a step function; an execution is
      an interleaving of the atomic steps of submitters, workers and the
      destroying thread.
    - Module [Convolution] embeds [ConvolutionTask], the initialisation
      of the input volume, the submit loop and the wait loop of
      [execute_convolution], and the kernels [main] builds.
      [calculate_std_dev], which nothing calls, is left out.

    In the first two modules sizes and indices are [nat]: the code only compares them and counts
    upwards from 0.  The body of a task is opaque; calling it is an
    event.  What the code prints on [std::cout] is left out. *)

From stdpp Require Import base list.
From Stdlib Require Import ZArith Lia.

(* ================================================================== *)
(** * ThreadSafeDeque *)
(* ================================================================== *)

Module Deque.

(** The two condition variables of a deque, and the wake-ups a critical
    section issues on them. *)
Inductive condition_variable := cv_not_empty_ | cv_not_full_.

Inductive notification :=
| NotifyOne (cv : condition_variable)
| NotifyAll (cv : condition_variable).

(** The state protected by [mut_].  [deque_] is the
    [std::deque<std::unique_ptr<T>>]: the head of the list is [front()],
    its last element is [back()]; a slot owns its [T], so a slot is the
    value itself.  [max_size_] is the [const size_t] bound; it is only
    ever compared with [deque_.size()]. *)
Record ThreadSafeDeque (T : Type) := mkDeque {
  deque_ : list T;
  max_size_ : nat;
  done_ : bool;
}.
Arguments mkDeque {T} _ _ _.
Arguments deque_ {T} _.
Arguments max_size_ {T} _.
Arguments done_ {T} _.

(** What a call does to the deque it is invoked on.
    - [Blocked]: the predicate of [condition_variable::wait(lock, pred)] is
      false, the caller stays asleep and the state is untouched;
    - [Undefined]: the body would call [back()], [front()], [pop_back()] or
      [pop_front()] on an empty [std::deque];
    - [Done r d ns]: the call returns [r], leaves the state [d] and has
      issued the notifications [ns], oldest first. *)
Inductive outcome (T A : Type) :=
| Blocked
| Undefined
| Done (r : A) (d : ThreadSafeDeque T) (ns : list notification).
Arguments Blocked {T A}.
Arguments Undefined {T A}.
Arguments Done {T A} _ _ _.

(** A critical section on a deque of [T] returning an [A]. *)
Definition locked (T A : Type) : Type := ThreadSafeDeque T → outcome T A.

#[global] Instance locked_ret {T} : MRet (locked T) :=
  λ A (r : A) d, Done r d [].

#[global] Instance locked_bind {T} : MBind (locked T) :=
  λ A B (f : A → locked T B) (m : locked T A) d,
    match m d with
    | Blocked => Blocked
    | Undefined => Undefined
    | Done a d1 ns1 =>
        match f a d1 with
        | Blocked => Blocked
        | Undefined => Undefined
        | Done b d2 ns2 => Done b d2 (ns1 ++ ns2)
        end
    end.

Section Primitives.
Context {T : Type}.

(** [cv.wait(lock, pred)]: returns, with the lock held, only in a state
    where [pred] holds. *)
Definition wait (cv : condition_variable)
    (pred : ThreadSafeDeque T → bool) : locked T unit :=
  λ d, if pred d then Done tt d [] else Blocked.

Definition read {A} (f : ThreadSafeDeque T → A) : locked T A :=
  λ d, Done (f d) d [].

Definition empty (d : ThreadSafeDeque T) : bool :=
  match deque_ d with [] => true | _ :: _ => false end.

Definition size (d : ThreadSafeDeque T) : nat := length (deque_ d).

Definition back : locked T T :=
  λ d, match last (deque_ d) with
       | Some v => Done v d []
       | None => Undefined
       end.

Definition front : locked T T :=
  λ d, match head (deque_ d) with
       | Some v => Done v d []
       | None => Undefined
       end.

Definition pop_back : locked T unit :=
  λ d, match deque_ d with
       | [] => Undefined
       | _ :: _ => Done tt (mkDeque (removelast (deque_ d)) (max_size_ d) (done_ d)) []
       end.

Definition pop_front : locked T unit :=
  λ d, match deque_ d with
       | [] => Undefined
       | _ :: rest => Done tt (mkDeque rest (max_size_ d) (done_ d)) []
       end.

Definition push_back (v : T) : locked T unit :=
  λ d, Done tt (mkDeque (deque_ d ++ [v]) (max_size_ d) (done_ d)) [].

Definition set_done (b : bool) : locked T unit :=
  λ d, Done tt (mkDeque (deque_ d) (max_size_ d) b) [].

Definition notify_one (cv : condition_variable) : locked T unit :=
  λ d, Done tt d [NotifyOne cv].

Definition notify_all (cv : condition_variable) : locked T unit :=
  λ d, Done tt d [NotifyAll cv].
End Primitives.

Section Operations.
Context {T : Type}.

(** [ThreadSafeDeque(size_t max_size = 50)]: [None] is the call that
    leaves the default argument out. *)
Definition ThreadSafeDeque_ctor (max_size : option nat) : ThreadSafeDeque T :=
  mkDeque [] (default 50 max_size) false.

(** [void push(T value)] *)
Definition push (value : T) : locked T unit :=
  wait cv_not_full_ (λ d, done_ d || bool_decide (size d < max_size_ d));;
  done ← read done_;
  if done : bool then mret tt
  else
    push_back value;;
    notify_one cv_not_empty_.

(** [bool try_pop(T& value)]: [Some v] stands for "returns true after
    assigning [v] to [value]", [None] for "returns false", [value]
    untouched. *)
Definition try_pop : locked T (option T) :=
  is_empty ← read empty;
  if is_empty : bool then mret None
  else
    data ← back;
    pop_back;;
    notify_one cv_not_full_;;
    mret (Some data).

(** [bool try_steal(T& value)] *)
Definition try_steal : locked T (option T) :=
  is_empty ← read empty;
  if is_empty : bool then mret None
  else
    data ← front;
    pop_front;;
    notify_one cv_not_full_;;
    mret (Some data).

(** [bool wait_and_pop(T& value)] *)
Definition wait_and_pop : locked T (option T) :=
  wait cv_not_empty_ (λ d, done_ d || negb (empty d));;
  done ← read done_;
  is_empty ← read empty;
  if (done && is_empty) : bool then mret None
  else
    data ← back;
    pop_back;;
    notify_one cv_not_full_;;
    mret (Some data).

(** [void close()] *)
Definition close : locked T unit :=
  set_done true;;
  notify_all cv_not_empty_;;
  notify_all cv_not_full_.
End Operations.

(** The state a call leaves behind; a blocked caller leaves it as it
    found it. *)
Definition state_after {T A} (d : ThreadSafeDeque T) (o : outcome T A) : ThreadSafeDeque T :=
  match o with Done _ d' _ => d' | _ => d end.

(** What a call returns, if it returns. *)
Definition returned {T A} (o : outcome T A) : option A :=
  match o with Done r _ _ => Some r | _ => None end.

(** The five operations of the public interface, as data, and the state
    each leaves behind. *)
Inductive operation (T : Type) :=
| OpPush (value : T)
| OpTryPop
| OpTrySteal
| OpWaitAndPop
| OpClose.
Arguments OpPush {T} _.
Arguments OpTryPop {T}.
Arguments OpTrySteal {T}.
Arguments OpWaitAndPop {T}.
Arguments OpClose {T}.

Definition perform {T} (op : operation T) (d : ThreadSafeDeque T) : ThreadSafeDeque T :=
  match op with
  | OpPush value => state_after d (push value d)
  | OpTryPop => state_after d (try_pop d)
  | OpTrySteal => state_after d (try_steal d)
  | OpWaitAndPop => state_after d (wait_and_pop d)
  | OpClose => state_after d (close d)
  end.

Definition perform_all {T} (ops : list (operation T)) (d : ThreadSafeDeque T) : ThreadSafeDeque T :=
  foldl (λ d op, perform op d) d ops.




(** A caller's loop: call [op] (try_pop, try_steal or wait_and_pop) again
    and again, at most [fuel] times, until it returns nothing, and collect
    what it returned, first call first. *)
Fixpoint drain {T} (op : locked T (option T)) (fuel : nat) : locked T (list T) :=
  match fuel with
  | 0 => mret []
  | S fuel' =>
      r ← op;
      match r with
      | None => mret []
      | Some v => rest ← drain op fuel'; mret (v :: rest)
      end
  end.

End Deque.

(* ================================================================== *)
(** * ThreadPool *)
(* ================================================================== *)

Module Pool.
Import Deque.

(** [using TaskFunc = std::function<void()>]: a [std::function] is either
    empty or holds a target.  The target's body is opaque to the pool; it
    is named by an identifier, and calling it is observed as a [Ran]
    event. *)
Inductive TaskFunc := EmptyFunction | Target (id : nat).

(** [using Queue = ThreadSafeDeque<TaskFunc>] *)
Abbreviation Queue := (ThreadSafeDeque TaskFunc).

(** Where a worker stands in [ThreadPool::worker]; one constructor per
    statement that touches shared state or calls the task. *)
Inductive worker_pc :=
| LoopTop               (* while (!token.stop_requested())          *)
| TryPop                (* work_queues[idx].try_pop(task)           *)
| CallPopped            (* task(); continue;   after try_pop        *)
| GetRandom             (* int i = get_random();                    *)
| TrySteal (i : nat)    (* work_queues[i].try_steal(task)           *)
| CallStolen            (* task(); continue;   after try_steal      *)
| WaitAndPop            (* work_queues[idx].wait_and_pop(task)      *)
| CallWaited            (* if (task) { task(); }                    *)
| Exited.               (* past the loop: the thread function returns *)

(** One [std::jthread] of [threads] together with the frame of the
    [worker] call it runs.  The constructor starts each thread with
    [threads.emplace_back([this, i](std::stop_token token) { ... })].  A
    [std::jthread] owns a stop source of its own and, when its callable
    accepts a [std::stop_token] as first argument, invokes it with
    [get_stop_token()] of that source; [~jthread] calls [request_stop()]
    and then [join()].  So the [token] the worker polls is the stop state
    of its own jthread, [stop_requested] below, and not that of the
    member [stop_source_], from which no token is ever taken.  [task] is
    the local [TaskFunc task;] declared before the loop, which try_pop,
    try_steal and wait_and_pop assign through their reference
    parameter. *)
Record jthread := mkThread {
  stop_requested : bool;
  pc : worker_pc;
  task : TaskFunc;
}.

(** Where the thread that destroys the pool stands in [~ThreadPool].  After
    the body, the members are destroyed in reverse order of declaration
    ([stop_source_], [threads], [work_queues], [mt], [rand_mut],
    [thread_count] are declared in this order): [thread_count],
    [rand_mut], [mt], [work_queues], then [threads], whose elements are
    destroyed first to last, each [~jthread] requesting stop and joining,
    and last [stop_source_]. *)
Inductive dtor_pc :=
| Alive                   (* the destructor has not been entered        *)
| StopWorkers (i : nat)   (* stop_workers(): before iteration i          *)
| DestroyQueues           (* body done; thread_count, rand_mut, mt and
                             work_queues are destroyed next              *)
| DestroyThread (i : nat) (* ~jthread of threads[i]: request_stop() next *)
| JoinThread (i : nat)    (* ~jthread of threads[i]: inside join()       *)
| Destroyed.              (* the destructor has returned                 *)

(** What an observer sees. *)
Inductive event :=
| Took (w : nat) (f : TaskFunc)   (* worker w received f from a pop or steal *)
| Ran (w : nat) (id : nat).       (* worker w called the target id           *)

(** The pool.  [work_queues] is the [std::unique_ptr<Queue[]>]: [None]
    once the array has been destroyed.  The generator [mt] (under
    [rand_mut]) is seen through the indices it yields, which label the
    steps below.  [dtor] and [events] are not members: they record the
    progress of the destroying thread and the observations made so far
    (newest first). *)
Record ThreadPool := mkPool {
  stop_source_ : bool;
  threads : list jthread;
  work_queues : option (list Queue);
  thread_count : nat;
  dtor : dtor_pc;
  events : list event;
}.

(** What one step of one thread does to the pool. *)
Inductive result :=
| Step (p : ThreadPool)  (* the thread takes its step                        *)
| Blocked                (* the thread is asleep in a wait or in join()      *)
| UB                     (* undefined behaviour: a member used after its
                            destruction, or [Deque.Undefined]               *)
| Abort                  (* std::terminate: bad_function_call left a thread *)
| Invalid.               (* not a step of the program: no such worker, a
                            finished thread, a draw outside the range       *)

Definition set_thread (idx : nat) (th : jthread) (p : ThreadPool) : ThreadPool :=
  mkPool (stop_source_ p) (<[idx := th]> (threads p)) (work_queues p)
         (thread_count p) (dtor p) (events p).

Definition set_queues (qs : option (list Queue)) (p : ThreadPool) : ThreadPool :=
  mkPool (stop_source_ p) (threads p) qs (thread_count p) (dtor p) (events p).

Definition set_stop_source (b : bool) (p : ThreadPool) : ThreadPool :=
  mkPool b (threads p) (work_queues p) (thread_count p) (dtor p) (events p).

Definition set_dtor (s : dtor_pc) (p : ThreadPool) : ThreadPool :=
  mkPool (stop_source_ p) (threads p) (work_queues p) (thread_count p) s (events p).

Definition log (e : event) (p : ThreadPool) : ThreadPool :=
  mkPool (stop_source_ p) (threads p) (work_queues p) (thread_count p)
         (dtor p) (e :: events p).

(** [work_queues[i].op(...)]: run the critical section [op] on queue [i]
    and hand what it returned, with the updated pool, to [k]. *)
Definition on_queue {A} (i : nat) (op : locked TaskFunc A)
    (k : A → ThreadPool → result) (p : ThreadPool) : result :=
  match work_queues p with
  | None => UB
  | Some qs =>
      match qs !! i with
      | None => UB
      | Some q =>
          match op q with
          | Deque.Blocked => Blocked
          | Deque.Undefined => UB
          | Done r q' _ =>
              k r (set_queues (Some (<[i := q']> qs)) p)
          end
      end
  end.

(** [int get_random()]: [std::uniform_int_distribution<int>
    dist(0, thread_count - 1)] applied to [mt].  [draw] is the value the
    distribution yields; it lies in the closed range it was built with. *)
Definition get_random (draw : nat) (p : ThreadPool) : option nat :=
  if bool_decide (0 ≤ Z.of_nat draw ≤ Z.of_nat (thread_count p) - 1)%Z
  then Some draw else None.

(** [task()] on worker [w]: calling an empty [std::function] throws
    [std::bad_function_call], which nothing catches. *)
Definition call (w : nat) (f : TaskFunc) (p : ThreadPool) : result :=
  match f with
  | EmptyFunction => Abort
  | Target id => Step (log (Ran w id) p)
  end.

(** [std::max(1, (int)std::thread::hardware_concurrency())]: the cast of
    the [unsigned int] to a 32-bit [int]. *)
Definition int_of_unsigned (u : Z) : Z :=
  if (u <? 2 ^ 31)%Z then u else (u - 2 ^ 32)%Z.

(** [ThreadPool::ThreadPool()].  It takes no argument; its only input is
    what [hardware_concurrency()] reports.  [std::make_unique<Queue[]>]
    default-constructs every queue; every jthread starts at the top of
    the worker loop with a fresh, unrequested stop state and an empty
    [task]. *)
Definition ThreadPool_ctor (hardware_concurrency : Z) : ThreadPool :=
  let thread_count := Z.to_nat (Z.max 1 (int_of_unsigned hardware_concurrency)) in
  mkPool false
         (replicate thread_count (mkThread false LoopTop EmptyFunction))
         (Some (replicate thread_count (ThreadSafeDeque_ctor None)))
         thread_count Alive [].

(** [void ThreadPool::submit(TaskFunc func)], called by any thread.
    [get_random] locks [rand_mut] and reads [mt], which are destroyed
    just before [work_queues] is. *)
Definition submit (func : TaskFunc) (draw : nat) (p : ThreadPool) : result :=
  match work_queues p, get_random draw p with
  | None, _ => UB
  | Some _, None => Invalid
  | Some _, Some i => on_queue i (push func) (λ _ p', Step p') p
  end.

(** One step of [void ThreadPool::worker(std::stop_token token, int idx)],
    taken by the thread whose frame is [th]. *)
Definition worker_step (idx draw : nat) (th : jthread) (p : ThreadPool) : result :=
  let goto pc' p' := set_thread idx (mkThread (stop_requested th) pc' (task th)) p' in
  let take pc' f p' :=
    log (Took idx f) (set_thread idx (mkThread (stop_requested th) pc' f) p') in
  match pc th with
  | LoopTop =>
      (* while (!token.stop_requested()) *)
      if stop_requested th then Step (goto Exited p) else Step (goto TryPop p)
  | TryPop =>
      (* if (work_queues[idx].try_pop(task)) *)
      on_queue idx try_pop
        (λ r p', match r with
                 | Some f => Step (take CallPopped f p')
                 | None => Step (goto GetRandom p')
                 end) p
  | CallPopped | CallStolen =>
      (* task(); continue; *)
      match call idx (task th) p with
      | Step p' => Step (goto LoopTop p')
      | r => r
      end
  | GetRandom =>
      (* int i = get_random();  rand_mut and mt are destroyed just before
         work_queues is *)
      match work_queues p, get_random draw p with
      | None, _ => UB
      | Some _, None => Invalid
      | Some _, Some i => Step (goto (TrySteal i) p)
      end
  | TrySteal i =>
      (* if (work_queues[i].try_steal(task)) *)
      on_queue i try_steal
        (λ r p', match r with
                 | Some f => Step (take CallStolen f p')
                 | None => Step (goto WaitAndPop p')
                 end) p
  | WaitAndPop =>
      (* if (!work_queues[idx].wait_and_pop(task)) break; *)
      on_queue idx wait_and_pop
        (λ r p', match r with
                 | Some f => Step (take CallWaited f p')
                 | None => Step (goto Exited p')
                 end) p
  | CallWaited =>
      (* if (task) { task(); } *)
      match task th with
      | EmptyFunction => Step (goto LoopTop p)
      | Target _ =>
          match call idx (task th) p with
          | Step p' => Step (goto LoopTop p')
          | r => r
          end
      end
  | Exited => Invalid
  end.

Definition worker (idx draw : nat) (p : ThreadPool) : result :=
  match threads p !! idx with
  | None => Invalid
  | Some th => worker_step idx draw th p
  end.

(** One step of [ThreadPool::~ThreadPool()], [stop_workers()] and the
    destruction of the members that follows the body. *)
Definition destructor (p : ThreadPool) : result :=
  match dtor p with
  | Alive =>
      (* stop_source_.request_stop(); *)
      Step (set_dtor (StopWorkers 0) (set_stop_source true p))
  | StopWorkers i =>
      (* for (int i = 0; i < thread_count; ++i) work_queues[i].close(); *)
      if bool_decide (i < thread_count p)
      then on_queue i close (λ _ p', Step (set_dtor (StopWorkers (S i)) p')) p
      else Step (set_dtor DestroyQueues p)
  | DestroyQueues =>
      Step (set_dtor (DestroyThread 0) (set_queues None p))
  | DestroyThread i =>
      match threads p !! i with
      | Some th =>
          Step (set_dtor (JoinThread i)
                  (set_thread i (mkThread true (pc th) (task th)) p))
      | None => Step (set_dtor Destroyed p)
      end
  | JoinThread i =>
      match threads p !! i with
      | Some th =>
          match pc th with
          | Exited => Step (set_dtor (DestroyThread (S i)) p)
          | _ => Blocked
          end
      | None => Invalid
      end
  | Destroyed => Invalid
  end.

(** The atomic steps of the threads that share a pool. *)
Inductive action :=
| Submit (func : TaskFunc) (draw : nat)  (* a caller runs submit(func)        *)
| Worker (idx : nat) (draw : nat)        (* worker idx takes its next step;
                                            draw is read by get_random only *)
| Destructor.                            (* the destroying thread's next step *)

Definition step (a : action) (p : ThreadPool) : result :=
  match a with
  | Submit func draw => submit func draw p
  | Worker idx draw => worker idx draw p
  | Destructor => destructor p
  end.

(** An interleaving, run from [p]; it stops at the first step that is not
    taken. *)
Fixpoint run (acts : list action) (p : ThreadPool) : result :=
  match acts with
  | [] => Step p
  | a :: rest =>
      match step a p with
      | Step p' => run rest p'
      | r => r
      end
  end.

(** ** What the observer counts *)

(** The targets among some [TaskFunc] values, by identifier. *)
Definition target_id (f : TaskFunc) : list nat :=
  match f with
  | EmptyFunction => []
  | Target id => [id]
  end.

Definition targets (fs : list TaskFunc) : list nat := fs ≫= target_id.

(** The targets stored in the deques, queue 0 first, each front to back. *)
Definition queued (p : ThreadPool) : list nat :=
  match work_queues p with
  | None => []
  | Some qs => qs ≫= (λ q, targets (deque_ q))
  end.

(** The target a worker has received and is about to call. *)
Definition pending (th : jthread) : list nat :=
  match pc th with
  | CallPopped | CallStolen | CallWaited => target_id (task th)
  | _ => []
  end.

Definition held (p : ThreadPool) : list nat := threads p ≫= pending.

(** The targets handed out by pops and steals, and the targets called. *)
Definition took (p : ThreadPool) : list nat :=
  events p ≫= (λ e, match e with Took _ f => target_id f | Ran _ _ => [] end).

Definition ran (p : ThreadPool) : list nat :=
  events p ≫= (λ e, match e with Took _ _ => [] | Ran _ id => [id] end).

(** The targets submitted along an interleaving. *)
Definition submitted (acts : list action) : list nat :=
  acts ≫= (λ a, match a with Submit f _ => target_id f | _ => [] end).

(** The target a pop or steal hands to its caller. *)
Definition received (r : option TaskFunc) : list nat :=
  match r with Some f => target_id f | None => [] end.

(** How many times [id] occurs in a list of identifiers. *)
Definition times (id : nat) (l : list nat) : nat :=
  length (filter (λ x, x = id) l).

(** The bookkeeping that holds of every state reached from a new pool
    when the targets [ids] have been submitted: every target stored in a
    deque or handed out was submitted, as many times at most; and every
    target handed out is either about to be called or was called, and the
    other way round. *)
Definition accounted (ids : list nat) (p : ThreadPool) : Prop :=
  ∀ id, times id (queued p) + times id (took p) ≤ times id ids ∧
        times id (took p) = times id (held p) + times id (ran p).

(** What the joins have established so far: the destructor has joined the
    threads before the one it is working on, and all of them once it has
    returned. *)
Definition exited (p : ThreadPool) (j : nat) : Prop :=
  ∀ th, threads p !! j = Some th → pc th = Exited.

Definition joined (p : ThreadPool) : Prop :=
  match dtor p with
  | DestroyThread i | JoinThread i => ∀ j, j < i → exited p j
  | Destroyed => ∀ j, exited p j
  | Alive | StopWorkers _ | DestroyQueues => True
  end.

(** Worker [idx] running with no other thread in between, from where it
    stands until it is back at the top of its loop or has exited; the
    longest way round the loop body takes six steps. *)
Fixpoint iterate (fuel : nat) (idx draw : nat) (p : ThreadPool) : result :=
  match fuel with
  | 0 => Step p
  | S fuel' =>
      match worker idx draw p with
      | Step p' =>
          match pc <$> threads p' !! idx with
          | Some LoopTop | Some Exited => Step p'
          | _ => iterate fuel' idx draw p'
          end
      | r => r
      end
  end.

Definition iteration (idx draw : nat) (p : ThreadPool) : result :=
  iterate 6 idx draw p.

(** ** The shape of the reachable states *)

(** Whether the destroying thread is past the destruction of
    [work_queues]. *)
Definition queues_destroyed (s : dtor_pc) : bool :=
  match s with
  | Alive | StopWorkers _ | DestroyQueues => false
  | DestroyThread _ | JoinThread _ | Destroyed => true
  end.

(** A pool of [n] workers: [n] threads, and [n] queues of capacity 50
    holding at most 50 tasks each for as long as [work_queues] exists;
    a worker about to steal has drawn an index below [n]. *)
Definition shaped (n : nat) (p : ThreadPool) : Prop :=
  thread_count p = n ∧ length (threads p) = n ∧
  (∀ idx th i, threads p !! idx = Some th → pc th = TrySteal i → i < n) ∧
  (if queues_destroyed (dtor p) then work_queues p = None
   else ∃ qs, work_queues p = Some qs ∧ length qs = n ∧
              Forall (λ q, max_size_ q = 50 ∧ size q ≤ 50) qs).

(** A pool nothing has begun to tear down: no stop requested anywhere, no
    worker out of its loop, no queue closed. *)
Definition untouched (p : ThreadPool) : Prop :=
  stop_source_ p = false ∧
  Forall (λ th, stop_requested th = false ∧ pc th ≠ Exited) (threads p) ∧
  (∀ qs, work_queues p = Some qs → Forall (λ q, done_ q = false) qs).

(** How far [stop_workers()] has got: the queues it has been through are
    closed. *)
Definition closed_so_far (p : ThreadPool) : Prop :=
  ∀ qs, work_queues p = Some qs →
    match dtor p with
    | StopWorkers i => ∀ j q, j < i → qs !! j = Some q → done_ q = true
    | DestroyQueues => Forall (λ q, done_ q = true) qs
    | _ => True
    end.

End Pool.


(* ================================================================== *)
(** * The convolution tasks *)
(* ================================================================== *)

(** Embedding of [convolution.hpp].  An [Image] is a
    [std::vector<float>], here a list over a type [F] of floats that is
    left open together with the float operations the code uses; the order
    in which the code applies them is kept.  An [int] is a [Z]; an [int]
    operation whose result does not fit 32 bits, and an index outside a
    vector, are undefined behaviour: the computation has no result
    ([None]). *)
Module Convolution.

Definition IMG_WIDTH : Z := 24.
Definition IMG_HEIGHT : Z := 24.
Definition IMG_DEPTH : Z := 24.
Definition KERNEL_DIM : Z := 3.
Definition BORDER : Z := KERNEL_DIM `quot` 2.
Definition VOLUME_SIZE : Z := IMG_WIDTH * IMG_HEIGHT * IMG_DEPTH.

(** An [int] result, when it fits. *)
Definition int (v : Z) : option Z :=
  if bool_decide (- 2 ^ 31 ≤ v ≤ 2 ^ 31 - 1)%Z then Some v else None.

Definition int_add (a b : Z) : option Z := int (a + b).
Definition int_sub (a b : Z) : option Z := int (a - b).
Definition int_mul (a b : Z) : option Z := int (a * b).

(** [std::atomic<int>::fetch_add] wraps around. *)
Definition wrap (v : Z) : Z := ((v + 2 ^ 31) `mod` 2 ^ 32 - 2 ^ 31)%Z.

(** [v[i]] read and written with an [int] index: the index is converted
    to [size_t], so a negative one is far beyond the end. *)
Definition at_ {F} (v : list F) (i : Z) : option F :=
  if bool_decide (0 ≤ i)%Z then v !! Z.to_nat i else None.

Definition store {F} (v : list F) (i : Z) (x : F) : option (list F) :=
  if bool_decide (0 ≤ i < Z.of_nat (length v))%Z
  then Some (<[Z.to_nat i := x]> v) else None.

(** [for (int i = first; i < last; ++i) body], the bounds being fixed
    while the loop runs; [s] is what the body updates. *)
Fixpoint for_each {S} (range : list Z) (body : Z → S → option S) (s : S) : option S :=
  match range with
  | [] => Some s
  | i :: rest => s' ← body i s; for_each rest body s'
  end.

Definition for_loop {S} (first last : Z) (body : Z → S → option S) (s : S) : option S :=
  for_each (seqZ first (last - first)) body s.

(** [int get_index(int z, int y, int x) const], also written out in
    [initialize_input_with_cube] and [calculate_std_dev]:
    [z * IMG_WIDTH * IMG_HEIGHT + y * IMG_WIDTH + x]. *)
Definition get_index (z y x : Z) : option Z :=
  zw ← int_mul z IMG_WIDTH;
  zwh ← int_mul zw IMG_HEIGHT;
  yw ← int_mul y IMG_WIDTH;
  s ← int_add zwh yw;
  int_add s x.

(** A [ConvolutionTask].  [input_] and [kernel_] are const references to
    vectors nobody writes while tasks run; [output_] and
    [completed_slices_counter_] refer to the objects all the tasks of one
    filter run share, the [shared] state a call updates.  The input and
    the output are two different vectors, as in [main]. *)
Record ConvolutionTask (F : Type) := mkTask {
  input_ : list F;
  kernel_ : list F;
  start_slice_ : Z;
  end_slice_ : Z;
}.
Arguments mkTask {F} _ _ _ _.
Arguments input_ {F} _.
Arguments kernel_ {F} _.
Arguments start_slice_ {F} _.
Arguments end_slice_ {F} _.

Record shared (F : Type) := mkShared {
  output : list F;
  completed_slices : Z;
}.
Arguments mkShared {F} _ _.
Arguments output {F} _.
Arguments completed_slices {F} _.

Section Float.
Context {F : Type}.
(** [0.0f], [+] and [*] on [float]. *)
Variables (fzero : F) (fadd fmul : F → F → F).

(** The three kernel loops of [operator()] for the output voxel
    [(z, r, c)]: [sum] and [kernel_idx] are the two locals they update. *)
Definition window (t : ConvolutionTask F) (z r c : Z) : option F :=
  acc ← for_loop (- BORDER) (BORDER + 1) (λ kz,
         for_loop (- BORDER) (BORDER + 1) (λ kr,
           for_loop (- BORDER) (BORDER + 1) (λ kc (acc : F * Z),
             let '(sum, kernel_idx) := acc in
             iz ← int_add z kz;
             ir ← int_add r kr;
             ic ← int_add c kc;
             input_idx ← get_index iz ir ic;
             k_val ← at_ (kernel_ t) kernel_idx;
             kernel_idx' ← int_add kernel_idx 1;
             in_val ← at_ (input_ t) input_idx;
             Some (fadd sum (fmul in_val k_val), kernel_idx'))))
         (fzero, 0%Z);
  Some (fst acc).

(** [void ConvolutionTask::operator()() const] *)
Definition call (t : ConvolutionTask F) (sh : shared F) : option (shared F) :=
  out ← for_loop (start_slice_ t) (end_slice_ t) (λ z,
         for_loop BORDER (IMG_HEIGHT - BORDER) (λ r,
           for_loop BORDER (IMG_WIDTH - BORDER) (λ c out,
             sum ← window t z r c;
             i ← get_index z r c;
             store out i sum)))
         (output sh);
  n ← int_sub (end_slice_ t) (start_slice_ t);
  Some (mkShared out (wrap (completed_slices sh + n))).




(** The 27 offsets of the kernel window in the order the loops visit
    them: [kz] outermost, [kc] innermost. *)
Definition offsets : list (Z * Z * Z) :=
  kz ← [-1; 0; 1]%Z; kr ← [-1; 0; 1]%Z; kc ← [-1; 0; 1]%Z; [(kz, kr, kc)].


(** The coordinates of the element [i] of an image. *)
Definition depth_of (i : nat) : Z := Z.of_nat i `div` (IMG_WIDTH * IMG_HEIGHT).
Definition row_of (i : nat) : Z := (Z.of_nat i `div` IMG_WIDTH) `mod` IMG_HEIGHT.
Definition column_of (i : nat) : Z := Z.of_nat i `mod` IMG_WIDTH.



(** [new] is [old] with the elements in [W] overwritten, the element [i]
    by [h i], and nothing else changed. *)
Definition overwritten (W : nat → Prop) (h : nat → F) (old new : list F) : Prop :=
  length new = length old ∧
  ∀ i x, old !! i = Some x →
    (W i → new !! i = Some (h i)) ∧ (¬ W i → new !! i = Some x).

(** ** [initialize_input_with_cube] *)

Definition CUBE_START : Z := 5.
Definition CUBE_END : Z := IMG_DEPTH - CUBE_START.

(** [std::fill(v.begin(), v.end(), x)] *)
Definition fill (v : list F) (x : F) : list F := replicate (length v) x.

(** [void initialize_input_with_cube(Image& input)]; [f10] and [f100] are
    [10.0f] and [100.0f], and [noise i] is what the call
    [distribution(generator)] returns in the round [i] of the last loop. *)
Definition initialize_input_with_cube (f10 f100 : F) (noise : Z → F)
    (input : list F) : option (list F) :=
  let input := fill input f10 in
  input ← for_loop CUBE_START CUBE_END (λ z,
           for_loop CUBE_START CUBE_END (λ y,
             for_loop CUBE_START CUBE_END (λ x input,
               i ← get_index z y x;
               store input i f100)))
           input;
  for_loop 0 VOLUME_SIZE (λ i input,
    old ← at_ input i;
    store input i (fadd old (noise i))) input.

(** Whether the element [i] lies in the cube. *)
Definition in_cube (i : nat) : bool :=
  bool_decide (CUBE_START ≤ depth_of i < CUBE_END ∧
               CUBE_START ≤ row_of i < CUBE_END ∧
               CUBE_START ≤ column_of i < CUBE_END)%Z.

(** ** [execute_convolution] *)







(** ** The kernels of [main] *)

(** [std::vector<float> v(n, x)] *)
Definition vector (n : nat) (x : F) : list F := replicate n x.

(** [LAPLACIAN_KERNEL] and [Z_EDGE_KERNEL] as [main] builds them; [f0],
    [f1], [fm1] and [f6] are [0.0f], [1.0f], [-1.0f] and [6.0f]. *)
Definition LAPLACIAN_KERNEL (f0 fm1 f6 : F) : option (list F) :=
  k ← store (vector 27 f0) 4 fm1;
  k ← store k 10 fm1;
  k ← store k 12 fm1;
  k ← store k 14 fm1;
  k ← store k 16 fm1;
  k ← store k 22 fm1;
  store k 13 f6.

Definition Z_EDGE_KERNEL (f0 f1 fm1 : F) : option (list F) :=
  i ← int_add 13 9;
  k ← store (vector 27 f0) i f1;
  j ← int_sub 13 9;
  store k j fm1.

End Float.

End Convolution.

Import Deque Pool.

(* ================================================================== *)
(** * The deque's operations, case by case *)
(* ================================================================== *)

(** Unfold a critical section down to its case analysis. *)
Ltac run_locked :=
  unfold push, try_pop, try_steal, wait_and_pop, close,
    mbind, locked_bind, mret, locked_ret,
    wait, read, empty, size, back, front, pop_back, pop_front, push_back,
    set_done, notify_one, notify_all;
  cbn -[last removelast].

Section DequeEquations.
Context {T : Type}.
Implicit Types (d : ThreadSafeDeque T) (v : T) (l : list T).

Lemma push_unfold v d :
  push v d =
    if done_ d then Done tt d []
    else if bool_decide (size d < max_size_ d)
         then Done tt (mkDeque (deque_ d ++ [v]) (max_size_ d) (done_ d))
                   [NotifyOne cv_not_empty_]
         else Deque.Blocked.
Proof.
  destruct d as [l n [|]]; run_locked; [done|].
  by destruct (bool_decide _).
Qed.

Lemma try_pop_nil d : deque_ d = [] → try_pop d = Done None d [].
Proof. destruct d as [q n b]; simpl; intros ->. by run_locked. Qed.

Lemma try_pop_snoc d l v :
  deque_ d = l ++ [v] →
  try_pop d = Done (Some v) (mkDeque l (max_size_ d) (done_ d)) [NotifyOne cv_not_full_].
Proof.
  destruct d as [q n b]; simpl; intros ->.
  assert (Hne : ∃ x q', l ++ [v] = x :: q') by (destruct l; simpl; eauto).
  destruct Hne as (x & q' & E).
  pose proof (last_snoc v l) as Hl. pose proof (removelast_last l v) as Hr.
  rewrite E in *. run_locked. rewrite Hl. cbn -[last removelast]. by rewrite Hr.
Qed.

Lemma try_steal_nil d : deque_ d = [] → try_steal d = Done None d [].
Proof. destruct d as [q n b]; simpl; intros ->. by run_locked. Qed.

Lemma try_steal_cons d v l :
  deque_ d = v :: l →
  try_steal d = Done (Some v) (mkDeque l (max_size_ d) (done_ d)) [NotifyOne cv_not_full_].
Proof. destruct d as [q n b]; simpl; intros ->. by run_locked. Qed.

Lemma wait_and_pop_nil d :
  deque_ d = [] →
  wait_and_pop d = if done_ d then Done None d [] else Deque.Blocked.
Proof. destruct d as [q n [|]]; simpl; intros ->; by run_locked. Qed.

Lemma wait_and_pop_snoc d l v :
  deque_ d = l ++ [v] →
  wait_and_pop d =
    Done (Some v) (mkDeque l (max_size_ d) (done_ d)) [NotifyOne cv_not_full_].
Proof.
  destruct d as [q n b]; simpl; intros ->.
  assert (Hne : ∃ x q', l ++ [v] = x :: q') by (destruct l; simpl; eauto).
  destruct Hne as (x & q' & E).
  pose proof (last_snoc v l) as Hl. pose proof (removelast_last l v) as Hr.
  rewrite E in *.
  destruct b; run_locked; rewrite Hl; cbn -[last removelast]; by rewrite Hr.
Qed.

Lemma close_unfold d :
  close d = Done tt (mkDeque (deque_ d) (max_size_ d) true)
                 [NotifyAll cv_not_empty_; NotifyAll cv_not_full_].
Proof. reflexivity. Qed.

(** A list is empty or starts with a first element. *)
Lemma cons_cases l : l = [] ∨ ∃ v l', l = v :: l'.
Proof. destruct l; eauto. Qed.

(** A list is empty or ends in a last element. *)
Lemma snoc_cases l : l = [] ∨ ∃ l' v, l = l' ++ [v].
Proof.
  destruct (last l) as [v|] eqn:E.
  - right. apply last_Some in E as [l' ->]. eauto.
  - left. by apply last_None.
Qed.

End DequeEquations.

(** Sequencing critical sections: a call that returns hands its state to
    the next call. *)
Lemma bind_Done {T A B} (m : locked T A) (f : A → locked T B) d a d1 ns1 :
  m d = Done a d1 ns1 →
  (m ≫= f) d =
    match f a d1 with
    | Deque.Blocked => Deque.Blocked
    | Undefined => Undefined
    | Done b d2 ns2 => Done b d2 (ns1 ++ ns2)
    end.
Proof. intros H. unfold mbind, locked_bind. by rewrite H. Qed.

Lemma push_open {T} (l : list T) n v :
  length l < n →
  push v (mkDeque l n false) = Done tt (mkDeque (l ++ [v]) n false) [NotifyOne cv_not_empty_].
Proof.
  intros H. rewrite push_unfold. unfold size. simpl.
  by rewrite bool_decide_true.
Qed.

(* ================================================================== *)
(** * Properties of the deque *)
(* ================================================================== *)

(** C2. On a deque that one thread alone touches: after push A, push B,
    push C into the freshly constructed (empty, open) deque, three
    successive try_pop calls return C, B, A; and on a deque filled the same
    way three successive try_steal calls return A, B, C.  The capacity
    must let the three pushes through. *)
Theorem lifo_pop_fifo_steal {T} (A B C : T) (max_size : option nat) :
  3 ≤ default 50 max_size →
  let fresh : ThreadSafeDeque T := ThreadSafeDeque_ctor max_size in
  let fill : locked T unit := push A;; push B;; push C in
  returned ((fill;; x ← try_pop; y ← try_pop; z ← try_pop; mret [x; y; z]) fresh)
    = Some [Some C; Some B; Some A] ∧
  returned ((fill;; x ← try_steal; y ← try_steal; z ← try_steal; mret [x; y; z]) fresh)
    = Some [Some A; Some B; Some C].
Proof.
  intros Hcap fresh fill. unfold ThreadSafeDeque_ctor in fresh.
  set (n := default 50 max_size) in *.
  assert (Hfill : fill fresh = Done tt (mkDeque [A; B; C] n false)
            [NotifyOne cv_not_empty_; NotifyOne cv_not_empty_; NotifyOne cv_not_empty_]).
  { unfold fill, fresh.
    rewrite (bind_Done _ _ _ _ _ _ (push_open [] n A ltac:(simpl; lia))).
    cbn [app].
    rewrite (bind_Done _ _ _ _ _ _ (push_open [A] n B ltac:(simpl; lia))).
    cbn [app].
    by rewrite (push_open [A; B] n C ltac:(simpl; lia)). }
  split.
  - rewrite (bind_Done _ _ _ _ _ _ Hfill). cbv beta.
    rewrite (bind_Done _ _ _ _ _ _ (try_pop_snoc (mkDeque [A; B; C] n false) [A; B] C eq_refl)).
    cbv beta.
    rewrite (bind_Done _ _ _ _ _ _ (try_pop_snoc (mkDeque [A; B] n false) [A] B eq_refl)).
    cbv beta.
    rewrite (bind_Done _ _ _ _ _ _ (try_pop_snoc (mkDeque [A] n false) [] A eq_refl)).
    reflexivity.
  - rewrite (bind_Done _ _ _ _ _ _ Hfill). cbv beta.
    rewrite (bind_Done _ _ _ _ _ _ (try_steal_cons (mkDeque [A; B; C] n false) A [B; C] eq_refl)).
    cbv beta.
    rewrite (bind_Done _ _ _ _ _ _ (try_steal_cons (mkDeque [B; C] n false) B [C] eq_refl)).
    cbv beta.
    rewrite (bind_Done _ _ _ _ _ _ (try_steal_cons (mkDeque [C] n false) C [] eq_refl)).
    reflexivity.
Qed.

Lemma lifo_pop_fifo_steal_witness :
  3 ≤ default 50 (None : option nat) ∧
  returned (((push 1;; push 2;; push 3);;
             x ← try_pop; y ← try_pop; z ← try_pop; mret [x; y; z])
              (ThreadSafeDeque_ctor None))
    = Some [Some 3; Some 2; Some 1] ∧
  returned (((push 1;; push 2;; push 3);;
             x ← try_steal; y ← try_steal; z ← try_steal; mret [x; y; z])
              (ThreadSafeDeque_ctor None))
    = Some [Some 1; Some 2; Some 3].
Proof.
  split; [simpl; lia|].
  apply (lifo_pop_fifo_steal 1 2 3 None). simpl; lia.
Defined.

(** C3. On a deque holding at most [max_size_] tasks, push blocks exactly
    while the deque holds [max_size_] tasks and is not closed.  When the
    wait resolves on a closed deque, push returns (unit, no error) and
    leaves the whole state, the stored sequence included, as it was: the
    value is lost.  Otherwise push appends the value at the back. *)
Theorem push_contract {T} (d : ThreadSafeDeque T) (value : T) :
  size d ≤ max_size_ d →
  (push value d = Deque.Blocked ↔ size d = max_size_ d ∧ done_ d = false) ∧
  (done_ d = true → push value d = Done tt d []) ∧
  (done_ d = false → size d < max_size_ d →
     push value d =
       Done tt (mkDeque (deque_ d ++ [value]) (max_size_ d) false)
            [NotifyOne cv_not_empty_]).
Proof.
  intros Hinv. rewrite push_unfold.
  destruct (done_ d) eqn:Hdone.
  - split; [|split]; [|done|done].
    split; [done|]. by intros [_ ?].
  - case_bool_decide as Hlt.
    + split; [|split]; [|done|done].
      split; [done|]. intros [? _]. lia.
    + split; [|split]; [|done|intros _ ?; lia].
      split; [|done]. intros _. split; [lia|done].
Qed.

Lemma push_contract_witness :
  size (mkDeque [1; 2] 2 false) ≤ max_size_ (mkDeque [1; 2] 2 false) ∧
  push 3 (mkDeque [1; 2] 2 false) = Deque.Blocked ∧
  push 3 (mkDeque [1; 2] 2 true) = Done tt (mkDeque [1; 2] 2 true) [] ∧
  push 3 (mkDeque [1; 2] 4 false) =
    Done tt (mkDeque [1; 2; 3] 4 false) [NotifyOne cv_not_empty_].
Proof.
  assert (H2 : size (mkDeque [1; 2] 2 false) ≤ 2) by (unfold size; simpl; lia).
  assert (H4 : size (mkDeque [1; 2] 4 false) ≤ 4) by (unfold size; simpl; lia).
  split; [exact H2|]. split; [|split].
  - apply (push_contract (mkDeque [1; 2] 2 false) 3 H2). by split.
  - by apply (push_contract (mkDeque [1; 2] 2 true) 3 H2).
  - apply (push_contract (mkDeque [1; 2] 4 false) 3 H4); [done|].
    unfold size; simpl; lia.
Defined.

(** C4. wait_and_pop blocks exactly while the deque is empty and not
    closed.  It returns the empty result exactly when the deque is closed
    and empty at the moment the wait resolves; on a non-empty deque it
    removes and returns the back element, with the very outcome try_pop
    has there.  It never reaches [back()] on an empty deque. *)
Theorem wait_and_pop_contract {T} (d : ThreadSafeDeque T) :
  (wait_and_pop d = Deque.Blocked ↔ deque_ d = [] ∧ done_ d = false) ∧
  (returned (wait_and_pop d) = Some None ↔ done_ d = true ∧ deque_ d = []) ∧
  (∀ l v, deque_ d = l ++ [v] →
     wait_and_pop d =
       Done (Some v) (mkDeque l (max_size_ d) (done_ d)) [NotifyOne cv_not_full_] ∧
     wait_and_pop d = try_pop d) ∧
  wait_and_pop d ≠ Undefined.
Proof.
  destruct (snoc_cases (deque_ d)) as [Hnil | (l & v & Hsnoc)].
  - rewrite (wait_and_pop_nil d Hnil). rewrite Hnil.
    assert (Hno : ∀ (l : list T) v, [] = l ++ [v] → False) by (by intros []).
    destruct (done_ d); simpl.
    + split; [|split; [|split]]; [| | |done].
      * split; [done|]. by intros [_ ?].
      * by split.
      * intros l v Hl. by destruct (Hno l v).
    + split; [|split; [|split]]; [| | |done].
      * by split.
      * split; [done|]. by intros [? _].
      * intros l v Hl. by destruct (Hno l v).
  - rewrite (wait_and_pop_snoc d l v Hsnoc). rewrite Hsnoc. simpl.
    split; [|split; [|split]]; [| | |done].
    + split; [done|]. intros [Hl _]. by destruct l.
    + split; [done|]. intros [_ Hl]. by destruct l.
    + intros l' v' Hl'. apply app_inj_tail in Hl' as [-> ->].
      split; [done|]. by rewrite (try_pop_snoc d l' v' Hsnoc).
Qed.

Lemma wait_and_pop_contract_witness :
  deque_ (mkDeque [1; 2; 3] 50 true) = [1; 2] ++ [3] ∧
  wait_and_pop (mkDeque [1; 2; 3] 50 true) =
    Done (Some 3) (mkDeque [1; 2] 50 true) [NotifyOne cv_not_full_] ∧
  wait_and_pop (mkDeque ([] : list nat) 50 false) = Deque.Blocked ∧
  returned (wait_and_pop (mkDeque ([] : list nat) 50 true)) = Some None.
Proof.
  split; [reflexivity|]. split; [|split].
  - by apply (wait_and_pop_contract (mkDeque [1; 2; 3] 50 true)).
  - by apply (wait_and_pop_contract (mkDeque ([] : list nat) 50 false)).
  - by apply (wait_and_pop_contract (mkDeque ([] : list nat) 50 true)).
Defined.

(** One operation: the bound is fixed, the bound on the resident tasks is
    kept, and on a closed deque the flag stays set and the stored sequence
    can only lose elements. *)
Lemma perform_invariant {T} (op : operation T) (d : ThreadSafeDeque T) :
  max_size_ (perform op d) = max_size_ d ∧
  (size d ≤ max_size_ d → size (perform op d) ≤ max_size_ (perform op d)) ∧
  (done_ d = true →
     done_ (perform op d) = true ∧ sublist (deque_ (perform op d)) (deque_ d)).
Proof.
  unfold size. destruct op as [value| | | |]; simpl.
  - rewrite push_unfold. destruct (done_ d) eqn:Hd; simpl; [done|].
    case_bool_decide as Hlt; simpl; [|done].
    unfold size in Hlt. rewrite length_app. simpl.
    split; [done|]. split; [lia|done].
  - destruct (snoc_cases (deque_ d)) as [Hnil | (l & v & Hsnoc)].
    + by rewrite (try_pop_nil d Hnil).
    + rewrite (try_pop_snoc d l v Hsnoc), Hsnoc, length_app. simpl.
      split; [done|]. split; [lia|]. intros ->. split; [done|].
      apply sublist_inserts_r. reflexivity.
  - destruct (deque_ d) as [|v l] eqn:Hq.
    + rewrite (try_steal_nil d Hq). simpl. rewrite Hq. by repeat split.
    + rewrite (try_steal_cons d v l Hq). simpl.
      split; [done|]. split; [lia|]. intros ->. split; [done|].
      apply sublist_cons. reflexivity.
  - destruct (snoc_cases (deque_ d)) as [Hnil | (l & v & Hsnoc)].
    + rewrite (wait_and_pop_nil d Hnil).
      destruct (done_ d) eqn:E; simpl; rewrite ?E; by repeat split.
    + rewrite (wait_and_pop_snoc d l v Hsnoc), Hsnoc, length_app. simpl.
      split; [done|]. split; [lia|]. intros ->. split; [done|].
      apply sublist_inserts_r. reflexivity.
  - done.
Qed.

(** C5. Whatever sequence of push, try_pop, try_steal, wait_and_pop and
    close calls is performed on a deque: its bound stays the one it had; if
    it held at most that many tasks before, it does so after; and if it was
    closed before, it is closed after and the stored sequence is a
    subsequence of the earlier one (nothing was added).  A freshly
    constructed deque is empty, so it never exceeds its capacity. *)
Theorem deque_invariant {T} (ops : list (operation T)) (d : ThreadSafeDeque T) :
  max_size_ (perform_all ops d) = max_size_ d ∧
  (size d ≤ max_size_ d → size (perform_all ops d) ≤ max_size_ d) ∧
  (done_ d = true →
     done_ (perform_all ops d) = true ∧
     sublist (deque_ (perform_all ops d)) (deque_ d)) ∧
  (∀ max_size, d = ThreadSafeDeque_ctor max_size →
     size (perform_all ops d) ≤ default 50 max_size).
Proof.
  assert (Hmain : max_size_ (perform_all ops d) = max_size_ d ∧
    (size d ≤ max_size_ d → size (perform_all ops d) ≤ max_size_ d) ∧
    (done_ d = true →
       done_ (perform_all ops d) = true ∧
       sublist (deque_ (perform_all ops d)) (deque_ d))).
  { revert d. induction ops as [|op ops IH]; intros d; [done|].
    unfold perform_all in *. simpl.
    destruct (perform_invariant op d) as (Hm & Hs & Hd).
    destruct (IH (perform op d)) as (IHm & IHs & IHd).
    split; [congruence|]. split.
    - intros Hle. rewrite <- Hm. apply IHs. auto.
    - intros Hdone. destruct (Hd Hdone) as [Hdone' Hsub].
      destruct (IHd Hdone') as [? Hsub']. split; [done|].
      by etrans. }
  destruct Hmain as (Hm & Hs & Hd). repeat split; try tauto.
  intros max_size ->. apply Hs. unfold size. simpl. lia.
Qed.

Lemma deque_invariant_witness :
  done_ (mkDeque [1; 2] 2 true) = true ∧
  done_ (perform_all [OpPush 3; OpTrySteal; OpPush 4; OpClose; OpTryPop]
           (mkDeque [1; 2] 2 true)) = true ∧
  size (perform_all [OpPush 1; OpPush 2; OpPush 3; OpTryPop; OpPush 4]
          (ThreadSafeDeque_ctor (Some 2))) ≤ 2.
Proof.
  split; [reflexivity|]. split.
  - destruct (deque_invariant [OpPush 3; OpTrySteal; OpPush 4; OpClose; OpTryPop]
                (mkDeque [1; 2] 2 true)) as (_ & _ & Hclosed & _).
    by apply Hclosed.
  - destruct (deque_invariant [OpPush 1; OpPush 2; OpPush 3; OpTryPop; OpPush 4]
                (ThreadSafeDeque_ctor (Some 2))) as (_ & _ & _ & Hfresh).
    by apply (Hfresh (Some 2)).
Defined.

(** C8. close never blocks and never fails: it returns, leaving the stored
    sequence and the bound alone and the closed flag set.  Calling it any
    number of times (at least once) leaves the state one call leaves; on a
    deque that is already closed it changes nothing. *)
Theorem close_idempotent {T} (d : ThreadSafeDeque T) (n : nat) :
  (∃ ns, close d = Done tt (mkDeque (deque_ d) (max_size_ d) true) ns) ∧
  perform_all (replicate (S n) OpClose) d = perform OpClose d ∧
  state_after d ((close;; close) d) = state_after d (close d) ∧
  (done_ d = true → perform OpClose d = d).
Proof.
  split; [by eexists|]. split; [|split].
  - assert (Hfix : ∀ k (e : ThreadSafeDeque T), done_ e = true →
              perform_all (replicate k OpClose) e = e).
    { induction k as [|k IHk]; intros [q m b]; simpl; intros ->; [done|].
      by apply (IHk (mkDeque q m true)). }
    change (perform_all (replicate (S n) OpClose) d)
      with (perform_all (replicate n OpClose) (perform OpClose d)).
    by apply Hfix.
  - done.
  - destruct d as [q m b]; simpl. by intros ->.
Qed.

Lemma close_idempotent_witness :
  done_ (mkDeque [1; 2] 2 true) = true ∧
  perform OpClose (mkDeque [1; 2] 2 true) = mkDeque [1; 2] 2 true ∧
  perform_all (replicate 3 OpClose) (mkDeque [1; 2] 2 false) = mkDeque [1; 2] 2 true.
Proof.
  split; [reflexivity|]. split.
  - by apply (close_idempotent (mkDeque [1; 2] 2 true) 0).
  - by apply (close_idempotent (mkDeque [1; 2] 2 false) 2).
Defined.

(** C10. close leaves the stored sequence (and the bound) as they were.
    try_pop and try_steal do not look at the closed flag: on the closed
    deque they return what they return on the open one and leave the same
    stored sequence.  In particular, on a closed non-empty deque try_pop
    still removes and returns the back element and try_steal the front
    element. *)
Theorem close_keeps_tasks_drainable {T} (d : ThreadSafeDeque T) :
  let c := perform OpClose d in
  deque_ c = deque_ d ∧ max_size_ c = max_size_ d ∧ done_ c = true ∧
  returned (try_pop c) = returned (try_pop d) ∧
  returned (try_steal c) = returned (try_steal d) ∧
  deque_ (state_after c (try_pop c)) = deque_ (state_after d (try_pop d)) ∧
  deque_ (state_after c (try_steal c)) = deque_ (state_after d (try_steal d)) ∧
  (∀ l v, deque_ d = l ++ [v] →
     try_pop c = Done (Some v) (mkDeque l (max_size_ d) true) [NotifyOne cv_not_full_]) ∧
  (∀ v l, deque_ d = v :: l →
     try_steal c = Done (Some v) (mkDeque l (max_size_ d) true) [NotifyOne cv_not_full_]).
Proof.
  intros c. subst c. simpl.
  set (c := mkDeque (deque_ d) (max_size_ d) true).
  assert (Hpop : ∀ l v, deque_ d = l ++ [v] →
            try_pop c = Done (Some v) (mkDeque l (max_size_ d) true) [NotifyOne cv_not_full_]).
  { intros l v H. by rewrite (try_pop_snoc c l v H). }
  assert (Hsteal : ∀ v l, deque_ d = v :: l →
            try_steal c = Done (Some v) (mkDeque l (max_size_ d) true) [NotifyOne cv_not_full_]).
  { intros v l H. by rewrite (try_steal_cons c v l H). }
  assert (Hp : returned (try_pop c) = returned (try_pop d) ∧
               deque_ (state_after c (try_pop c)) = deque_ (state_after d (try_pop d))).
  { destruct (snoc_cases (deque_ d)) as [Hnil | (l & v & Hsnoc)].
    - by rewrite (try_pop_nil c Hnil), (try_pop_nil d Hnil).
    - by rewrite (Hpop l v Hsnoc), (try_pop_snoc d l v Hsnoc). }
  assert (Hs : returned (try_steal c) = returned (try_steal d) ∧
               deque_ (state_after c (try_steal c)) = deque_ (state_after d (try_steal d))).
  { destruct (cons_cases (deque_ d)) as [Hq | (v & l & Hq)].
    - by rewrite (try_steal_nil c Hq), (try_steal_nil d Hq).
    - by rewrite (Hsteal v l Hq), (try_steal_cons d v l Hq). }
  destruct Hp, Hs. by repeat split.
Qed.

Lemma close_keeps_tasks_drainable_witness :
  deque_ (mkDeque [1; 2; 3] 50 false) = [1; 2] ++ [3] ∧
  try_pop (perform OpClose (mkDeque [1; 2; 3] 50 false)) =
    Done (Some 3) (mkDeque [1; 2] 50 true) [NotifyOne cv_not_full_] ∧
  try_steal (perform OpClose (mkDeque [1; 2; 3] 50 false)) =
    Done (Some 1) (mkDeque [2; 3] 50 true) [NotifyOne cv_not_full_].
Proof.
  destruct (close_keeps_tasks_drainable (mkDeque [1; 2; 3] 50 false))
    as (_ & _ & _ & _ & _ & _ & _ & Hpop & Hsteal).
  split; [reflexivity|]. split.
  - by apply (Hpop [1; 2] 3).
  - by apply (Hsteal 1 [2; 3]).
Defined.

(* ================================================================== *)
(** * The pool: construction *)
(* ================================================================== *)

(** C9. The constructor takes no configuration at all: whatever
    [hardware_concurrency()] reports, the pool has
    [max(1, hardware_concurrency)] workers (at least one), one deque per
    worker, and every deque is default-constructed: empty, open and of
    capacity 50.  The optional capacity is a parameter of the deque's
    constructor, where leaving it out gives 50. *)
Theorem pool_construction (hardware_concurrency : Z) :
  let p := ThreadPool_ctor hardware_concurrency in
  (1 ≤ thread_count p) ∧
  Z.of_nat (thread_count p) = Z.max 1 (int_of_unsigned hardware_concurrency) ∧
  length (threads p) = thread_count p ∧
  (∃ qs, work_queues p = Some qs ∧ length qs = thread_count p ∧
         ∀ q, q ∈ qs → max_size_ q = 50 ∧ deque_ q = [] ∧ done_ q = false) ∧
  max_size_ (ThreadSafeDeque_ctor None : Queue) = 50 ∧
  (∀ n, max_size_ (ThreadSafeDeque_ctor (Some n) : Queue) = n).
Proof.
  simpl. split; [lia|]. split; [lia|]. split; [by rewrite length_replicate|].
  split; [|done]. eexists. split; [done|]. split; [by rewrite length_replicate|].
  by intros q ->%elem_of_replicate_inv.
Qed.

(* ================================================================== *)
(** * The pool: one iteration of the worker loop *)
(* ================================================================== *)

(** What a returning call on a queue did. *)
Lemma on_queue_Step {A} i (op : locked TaskFunc A) k p p' :
  on_queue i op k p = Step p' →
  ∃ qs q r q' ns,
    work_queues p = Some qs ∧ qs !! i = Some q ∧ op q = Done r q' ns ∧
    k r (set_queues (Some (<[i := q']> qs)) p) = Step p'.
Proof.
  unfold on_queue. intros H.
  destruct (work_queues p) as [qs|]; [|done].
  destruct (qs !! i) as [q|] eqn:Hq; [|done].
  destruct (op q) as [| |r q' ns] eqn:Hop; [done|done|].
  by exists qs, q, r, q', ns.
Qed.

Lemma on_queue_Done {A} i (op : locked TaskFunc A) k p qs q r q' ns :
  work_queues p = Some qs → qs !! i = Some q → op q = Done r q' ns →
  on_queue i op k p = k r (set_queues (Some (<[i := q']> qs)) p).
Proof. intros Hqs Hq Hop. unfold on_queue. by rewrite Hqs, Hq, Hop. Qed.

Lemma on_queue_Blocked {A} i (op : locked TaskFunc A) k p qs q :
  work_queues p = Some qs → qs !! i = Some q → op q = Deque.Blocked →
  on_queue i op k p = Blocked.
Proof. intros Hqs Hq Hop. unfold on_queue. by rewrite Hqs, Hq, Hop. Qed.

Lemma iterate_step fuel idx draw p p' th' :
  worker idx draw p = Step p' → threads p' !! idx = Some th' →
  iterate (S fuel) idx draw p =
    match pc th' with
    | LoopTop | Exited => Step p'
    | _ => iterate fuel idx draw p'
    end.
Proof. intros Hw Hth. simpl. by rewrite Hw, Hth. Qed.

Lemma worker_at idx draw p th :
  threads p !! idx = Some th → worker idx draw p = worker_step idx draw th p.
Proof. intros Hth. unfold worker. by rewrite Hth. Qed.

Lemma get_random_in_range draw p :
  draw < thread_count p → get_random draw p = Some draw.
Proof. intros H. unfold get_random. rewrite bool_decide_true; [done|lia]. Qed.

Lemma lookup_set_thread idx th' p :
  idx < length (threads p) → threads (set_thread idx th' p) !! idx = Some th'.
Proof. intros H. unfold set_thread. simpl. by apply list_lookup_insert_eq. Qed.

Section Iteration.
Variables (p : ThreadPool) (idx draw : nat) (th : jthread).
Variables (qs : list Queue) (qi qj : Queue).
Hypothesis Hth : threads p !! idx = Some th.
Hypothesis Hpc : pc th = LoopTop.
Hypothesis Hqs : work_queues p = Some qs.
Hypothesis Hqi : qs !! idx = Some qi.
Hypothesis Hqj : qs !! draw = Some qj.
Hypothesis Hdraw : draw < thread_count p.

Let Hlen : idx < length (threads p) := lookup_lt_Some _ _ _ Hth.

(** The stop token is set at the loop top: the worker exits. *)
Lemma iteration_token_set :
  stop_requested th = true →
  ∃ p', iteration idx draw p = Step p' ∧
        pc <$> threads p' !! idx = Some Exited ∧
        events p' = events p ∧ work_queues p' = work_queues p.
Proof using Hth Hpc.
  intros Hstop. eexists. unfold iteration.
  erewrite iterate_step;
    [ | rewrite (worker_at _ _ _ _ Hth); unfold worker_step;
        rewrite Hpc, Hstop; reflexivity
      | by apply lookup_set_thread ].
  simpl. split; [done|]. split; [|done].
  by rewrite lookup_set_thread.
Qed.

(** Token unset, own deque non-empty: the back element is popped and
    called. *)
Lemma iteration_pop_local l t :
  stop_requested th = false → deque_ qi = l ++ [Target t] →
  ∃ p', iteration idx draw p = Step p' ∧
        pc <$> threads p' !! idx = Some LoopTop ∧
        events p' = Ran idx t :: Took idx (Target t) :: events p ∧
        work_queues p' =
          Some (<[idx := mkDeque l (max_size_ qi) (done_ qi)]> qs).
Proof using Hth Hpc Hqs Hqi.
  intros Hstop Hq. eexists. unfold iteration.
  erewrite iterate_step;
    [ | rewrite (worker_at _ _ _ _ Hth); unfold worker_step;
        rewrite Hpc, Hstop; reflexivity
      | by apply lookup_set_thread ].
  cbn [pc].
  erewrite iterate_step;
    [ | erewrite worker_at by (by apply lookup_set_thread);
        unfold worker_step; cbn [pc];
        erewrite on_queue_Done by
          (first [exact Hqs | exact Hqi | by apply try_pop_snoc]);
        reflexivity
      | apply lookup_set_thread; simpl; by rewrite length_insert ].
  cbn [pc].
  erewrite iterate_step;
    [ | erewrite worker_at by
          (apply lookup_set_thread; simpl; by rewrite length_insert);
        reflexivity
      | apply lookup_set_thread; simpl; by rewrite !length_insert ].
  cbn [pc]. split; [done|]. split; [|done].
  rewrite lookup_set_thread; [done|]. simpl. by rewrite !length_insert.
Qed.

(** Token unset, own deque empty, deque [draw] non-empty: its front
    element is stolen and called.  [draw] may be any index below
    [thread_count], [idx] included. *)
Lemma iteration_steal l t :
  stop_requested th = false → deque_ qi = [] → deque_ qj = Target t :: l →
  ∃ p', iteration idx draw p = Step p' ∧
        pc <$> threads p' !! idx = Some LoopTop ∧
        events p' = Ran idx t :: Took idx (Target t) :: events p ∧
        work_queues p' =
          Some (<[draw := mkDeque l (max_size_ qj) (done_ qj)]> qs).
Proof using Hth Hpc Hqs Hqi Hqj Hdraw.
  intros Hstop Hnil Hq. eexists. unfold iteration.
  erewrite iterate_step;
    [ | rewrite (worker_at _ _ _ _ Hth); unfold worker_step;
        rewrite Hpc, Hstop; reflexivity
      | by apply lookup_set_thread ].
  cbn [pc].
  erewrite iterate_step;
    [ | erewrite worker_at by (by apply lookup_set_thread);
        unfold worker_step; cbn [pc];
        erewrite on_queue_Done by
          (first [exact Hqs | exact Hqi | by apply try_pop_nil]);
        rewrite (list_insert_id _ _ _ Hqi); reflexivity
      | apply lookup_set_thread; simpl; by rewrite length_insert ].
  cbn [pc].
  erewrite iterate_step;
    [ | erewrite worker_at by
          (apply lookup_set_thread; simpl; by rewrite length_insert);
        unfold worker_step; cbn [pc work_queues set_thread set_queues];
        rewrite get_random_in_range by exact Hdraw; reflexivity
      | apply lookup_set_thread; simpl; by rewrite !length_insert ].
  cbn [pc].
  erewrite iterate_step;
    [ | erewrite worker_at by
          (apply lookup_set_thread; simpl; by rewrite !length_insert);
        unfold worker_step; cbn [pc];
        erewrite on_queue_Done by
          (first [reflexivity | exact Hqj | by apply try_steal_cons]);
        reflexivity
      | apply lookup_set_thread; simpl; by rewrite !length_insert ].
  cbn [pc].
  erewrite iterate_step;
    [ | erewrite worker_at by
          (apply lookup_set_thread; simpl; by rewrite !length_insert);
        reflexivity
      | apply lookup_set_thread; simpl; by rewrite !length_insert ].
  cbn [pc]. split; [done|]. split; [|done].
  rewrite lookup_set_thread; [done|]. simpl. by rewrite !length_insert.
Qed.

(** Token unset, own deque and deque [draw] empty: the worker reaches
    wait_and_pop on its own deque; it exits if that deque is closed, and
    sleeps there if it is open. *)
Lemma iteration_wait :
  stop_requested th = false → deque_ qi = [] → deque_ qj = [] →
  if done_ qi
  then ∃ p', iteration idx draw p = Step p' ∧
             pc <$> threads p' !! idx = Some Exited ∧
             events p' = events p ∧ work_queues p' = work_queues p
  else iteration idx draw p = Blocked.
Proof using Hth Hpc Hqs Hqi Hqj Hdraw.
  intros Hstop Hnil Hnilj.
  assert (Hfour : ∃ p4 th4,
            iteration idx draw p = iterate 2 idx draw p4 ∧
            threads p4 !! idx = Some th4 ∧ pc th4 = WaitAndPop ∧
            events p4 = events p ∧ work_queues p4 = Some qs ∧
            length (threads p4) = length (threads p)).
  { do 2 eexists. unfold iteration.
    erewrite iterate_step;
      [ | rewrite (worker_at _ _ _ _ Hth); unfold worker_step;
        rewrite Hpc, Hstop; reflexivity
        | by apply lookup_set_thread ].
    cbn [pc].
    erewrite iterate_step;
      [ | erewrite worker_at by (by apply lookup_set_thread);
        unfold worker_step; cbn [pc];
          erewrite on_queue_Done by
            (first [exact Hqs | exact Hqi | by apply try_pop_nil]);
          rewrite (list_insert_id _ _ _ Hqi); reflexivity
        | apply lookup_set_thread; simpl; by rewrite length_insert ].
    cbn [pc].
    erewrite iterate_step;
      [ | erewrite worker_at by
            (apply lookup_set_thread; simpl; by rewrite length_insert);
          unfold worker_step; cbn [pc work_queues set_thread set_queues];
          rewrite get_random_in_range by exact Hdraw; reflexivity
        | apply lookup_set_thread; simpl; by rewrite !length_insert ].
    cbn [pc].
    erewrite iterate_step;
      [ | erewrite worker_at by
            (apply lookup_set_thread; simpl; by rewrite !length_insert);
          unfold worker_step; cbn [pc];
          erewrite on_queue_Done by
            (first [reflexivity | exact Hqj | by apply try_steal_nil]);
          rewrite (list_insert_id _ _ _ Hqj); reflexivity
        | apply lookup_set_thread; simpl; by rewrite !length_insert ].
    cbn [pc]. split; [reflexivity|].
    split; [apply lookup_set_thread; simpl; by rewrite !length_insert|].
    split; [done|]. split; [done|]. split; [done|].
    simpl. by rewrite !length_insert. }
  destruct Hfour as (p4 & th4 & -> & Hth4 & Hpc4 & Hev4 & Hqs4 & Hlen4).
  pose proof (wait_and_pop_nil qi Hnil) as Hwait.
  destruct (done_ qi).
  - eexists.
    erewrite iterate_step;
      [ | rewrite (worker_at _ _ _ _ Hth4); unfold worker_step; rewrite Hpc4;
          erewrite on_queue_Done by
            (first [exact Hqs4 | exact Hqi | exact Hwait]);
          rewrite (list_insert_id _ _ _ Hqi); reflexivity
        | apply lookup_set_thread; simpl; by rewrite Hlen4 ].
    cbn [pc]. split; [done|].
    rewrite lookup_set_thread by (simpl; by rewrite Hlen4).
    simpl. by rewrite Hev4, Hqs.
  - simpl. rewrite (worker_at _ _ _ _ Hth4). unfold worker_step. rewrite Hpc4.
    by erewrite on_queue_Blocked by
      (first [exact Hqs4 | exact Hqi | exact Hwait]).
Qed.

End Iteration.

(** No step of a worker reads [stop_source_]: with the flag forced to
    any value the worker takes the same step. *)
Lemma worker_blind_to_stop_source b idx draw p p' :
  worker idx draw p = Step p' →
  worker idx draw (set_stop_source b p) = Step (set_stop_source b p').
Proof.
  unfold worker. simpl.
  destruct (threads p !! idx) as [th|]; [|done].
  unfold worker_step, on_queue, call. simpl.
  destruct (pc th); try done.
  - destruct (stop_requested th); by intros [= <-].
  - destruct (work_queues p) as [qs|]; [|done].
    destruct (qs !! idx) as [q|]; [|done].
    destruct (try_pop q) as [| |[f|] q' ns]; try done; by intros [= <-].
  - destruct (task th); [done|]. by intros [= <-].
  - destruct (work_queues p); [|done].
    unfold get_random. simpl. case_bool_decide; [|done]. by intros [= <-].
  - destruct (work_queues p) as [qs|]; [|done].
    destruct (qs !! i) as [q|]; [|done].
    destruct (try_steal q) as [| |[f|] q' ns]; try done; by intros [= <-].
  - destruct (task th); [done|]. by intros [= <-].
  - destruct (work_queues p) as [qs|]; [|done].
    destruct (qs !! idx) as [q|]; [|done].
    destruct (wait_and_pop q) as [| |[f|] q' ns]; try done; by intros [= <-].
  - destruct (task th); by intros [= <-].
Qed.

(** C6.  A pool with one worker whose deque holds target 1.  The
    destructor has requested stop on the pool's [stop_source_]; the
    worker, at the top of its loop, does not exit: the token it polls
    belongs to its own jthread and is still unset.  It goes on to pop
    target 1 and to call it. *)
Theorem worker_ignores_stop_source :
  ∃ p p1 p3,
    run [Submit (Target 1) 0; Destructor] (ThreadPool_ctor 1) = Step p ∧
    stop_source_ p = true ∧
    threads p = [mkThread false LoopTop EmptyFunction] ∧
    worker 0 0 p = Step p1 ∧
    threads p1 = [mkThread false TryPop EmptyFunction] ∧
    run [Worker 0 0; Worker 0 0] p1 = Step p3 ∧
    ran p3 = [1].
Proof.
  do 3 eexists. split; [vm_compute; reflexivity|].
  split; [reflexivity|]. split; [reflexivity|].
  split; [vm_compute; reflexivity|]. split; [reflexivity|].
  split; [vm_compute; reflexivity|]. reflexivity.
Qed.

(* ================================================================== *)
(** * The pool: at-most-once execution *)
(* ================================================================== *)

Lemma times_app id l1 l2 : times id (l1 ++ l2) = times id l1 + times id l2.
Proof. unfold times. by rewrite filter_app, length_app. Qed.

Lemma times_nil id : times id [] = 0.
Proof. reflexivity. Qed.

(** Replacing one element of a list moves its contribution only. *)
Lemma times_bind_insert {A} id (F : A → list nat) (l : list A) i x y :
  l !! i = Some x →
  times id (<[i:=y]> l ≫= F) + times id (F x) = times id (l ≫= F) + times id (F y).
Proof.
  intros H. rewrite <- (take_drop_middle l i x H) at 2.
  rewrite insert_take_drop by (by eapply lookup_lt_Some).
  rewrite !bind_app, !bind_cons, !times_app. lia.
Qed.

Lemma times_bind_replicate {A} id (F : A → list nat) n x :
  F x = [] → times id (replicate n x ≫= F) = 0.
Proof.
  intros H. induction n as [|n IH]; [done|].
  by rewrite replicate_S, bind_cons, H.
Qed.

Lemma targets_snoc l f : targets (l ++ [f]) = targets l ++ target_id f.
Proof. unfold targets. rewrite bind_app, bind_cons. simpl. by rewrite app_nil_r. Qed.

Lemma targets_cons f l : targets (f :: l) = target_id f ++ targets l.
Proof. unfold targets. by rewrite bind_cons. Qed.

Lemma accounted_ctor hc : accounted [] (ThreadPool_ctor hc).
Proof.
  intros id. unfold queued, took, held, ran. simpl.
  rewrite !times_bind_replicate by done. done.
Qed.

Lemma try_pop_count id (q q' : Queue) r ns :
  try_pop q = Done r q' ns →
  times id (targets (deque_ q)) = times id (targets (deque_ q')) + times id (received r).
Proof.
  destruct (snoc_cases (deque_ q)) as [Hnil | (l & v & Hsnoc)].
  - rewrite (try_pop_nil q Hnil). intros [= <- <- <-]. simpl. rewrite times_nil. lia.
  - rewrite (try_pop_snoc q l v Hsnoc). intros [= <- <- <-]. simpl.
    by rewrite Hsnoc, targets_snoc, times_app.
Qed.

Lemma wait_and_pop_count id (q q' : Queue) r ns :
  wait_and_pop q = Done r q' ns →
  times id (targets (deque_ q)) = times id (targets (deque_ q')) + times id (received r).
Proof.
  destruct (snoc_cases (deque_ q)) as [Hnil | (l & v & Hsnoc)].
  - rewrite (wait_and_pop_nil q Hnil). destruct (done_ q); [|done].
    intros [= <- <- <-]. simpl. rewrite times_nil. lia.
  - rewrite (wait_and_pop_snoc q l v Hsnoc). intros [= <- <- <-]. simpl.
    by rewrite Hsnoc, targets_snoc, times_app.
Qed.

Lemma try_steal_count id (q q' : Queue) r ns :
  try_steal q = Done r q' ns →
  times id (targets (deque_ q)) = times id (targets (deque_ q')) + times id (received r).
Proof.
  destruct (cons_cases (deque_ q)) as [Hnil | (v & l & Hcons)].
  - rewrite (try_steal_nil q Hnil). intros [= <- <- <-]. simpl. rewrite times_nil. lia.
  - rewrite (try_steal_cons q v l Hcons). intros [= <- <- <-]. simpl.
    rewrite Hcons, targets_cons, times_app. lia.
Qed.

Lemma push_count id (q q' : Queue) f r ns :
  push f q = Done r q' ns →
  times id (targets (deque_ q')) ≤ times id (targets (deque_ q)) + times id (target_id f).
Proof.
  rewrite push_unfold. destruct (done_ q).
  - intros [= <- <- <-]. lia.
  - case_bool_decide; [|done]. intros [= <- <- <-]. simpl.
    by rewrite targets_snoc, times_app.
Qed.

Lemma close_count (q q' : Queue) r ns :
  close q = Done r q' ns → targets (deque_ q') = targets (deque_ q).
Proof. rewrite close_unfold. by intros [= <- <- <-]. Qed.

(** The counts after a queue or a thread has been replaced. *)
Lemma queued_insert id p qs i q q' :
  work_queues p = Some qs → qs !! i = Some q →
  times id (queued (set_queues (Some (<[i := q']> qs)) p))
    + times id (targets (deque_ q))
  = times id (queued p) + times id (targets (deque_ q')).
Proof.
  intros Hqs Hq. unfold queued. simpl. rewrite Hqs.
  by apply (times_bind_insert id (λ q, targets (deque_ q))).
Qed.

Lemma held_insert id p idx th th' :
  threads p !! idx = Some th →
  times id (held (set_thread idx th' p)) + times id (pending th)
  = times id (held p) + times id (pending th').
Proof. intros H. unfold held. simpl. by apply times_bind_insert. Qed.

(** The setters that leave a count alone. *)
Lemma queued_set_thread idx th p : queued (set_thread idx th p) = queued p.
Proof. reflexivity. Qed.
Lemma queued_set_dtor s p : queued (set_dtor s p) = queued p.
Proof. reflexivity. Qed.
Lemma queued_set_stop_source b p : queued (set_stop_source b p) = queued p.
Proof. reflexivity. Qed.
Lemma queued_log e p : queued (log e p) = queued p.
Proof. reflexivity. Qed.
Lemma queued_destroyed p : queued (set_queues None p) = [].
Proof. reflexivity. Qed.

Lemma held_set_queues qs p : held (set_queues qs p) = held p.
Proof. reflexivity. Qed.
Lemma held_set_dtor s p : held (set_dtor s p) = held p.
Proof. reflexivity. Qed.
Lemma held_set_stop_source b p : held (set_stop_source b p) = held p.
Proof. reflexivity. Qed.
Lemma held_log e p : held (log e p) = held p.
Proof. reflexivity. Qed.

Lemma took_set_thread idx th p : took (set_thread idx th p) = took p.
Proof. reflexivity. Qed.
Lemma took_set_queues qs p : took (set_queues qs p) = took p.
Proof. reflexivity. Qed.
Lemma took_set_dtor s p : took (set_dtor s p) = took p.
Proof. reflexivity. Qed.
Lemma took_set_stop_source b p : took (set_stop_source b p) = took p.
Proof. reflexivity. Qed.
Lemma took_log_Took w f p : took (log (Took w f) p) = target_id f ++ took p.
Proof. reflexivity. Qed.
Lemma took_log_Ran w id p : took (log (Ran w id) p) = took p.
Proof. reflexivity. Qed.

Lemma ran_set_thread idx th p : ran (set_thread idx th p) = ran p.
Proof. reflexivity. Qed.
Lemma ran_set_queues qs p : ran (set_queues qs p) = ran p.
Proof. reflexivity. Qed.
Lemma ran_set_dtor s p : ran (set_dtor s p) = ran p.
Proof. reflexivity. Qed.
Lemma ran_set_stop_source b p : ran (set_stop_source b p) = ran p.
Proof. reflexivity. Qed.
Lemma ran_log_Took w f p : ran (log (Took w f) p) = ran p.
Proof. reflexivity. Qed.
Lemma ran_log_Ran w id p : ran (log (Ran w id) p) = [id] ++ ran p.
Proof. reflexivity. Qed.

Create Rewrite HintDb counts.
#[local] Hint Rewrite
  queued_set_thread queued_set_dtor queued_set_stop_source queued_log
  queued_destroyed
  held_set_queues held_set_dtor held_set_stop_source held_log
  took_set_thread took_set_queues took_set_dtor took_set_stop_source
  took_log_Took took_log_Ran
  ran_set_thread ran_set_queues ran_set_dtor ran_set_stop_source
  ran_log_Took ran_log_Ran
  times_app times_nil : counts.

(** Every step keeps the books. *)
Lemma submit_accounted ids func draw p p' :
  accounted ids p → submit func draw p = Step p' →
  accounted (target_id func ++ ids) p'.
Proof.
  intros Hinv Hstep id. destruct (Hinv id) as [Hle Heq].
  unfold submit in Hstep.
  destruct (work_queues p) as [qs0|] eqn:Hqs0; [|done].
  destruct (get_random draw p) as [i|]; [|done].
  apply on_queue_Step in Hstep as (qs & q & r & q' & ns & Hqs & Hq & Hop & [= <-]).
  pose proof (queued_insert id p qs i q q' Hqs Hq) as Hcount.
  pose proof (push_count id q q' func r ns Hop) as Hpush.
  autorewrite with counts. lia.
Qed.

Lemma destructor_accounted ids p p' :
  accounted ids p → destructor p = Step p' → accounted ids p'.
Proof.
  intros Hinv Hstep id. destruct (Hinv id) as [Hle Heq].
  unfold destructor in Hstep. destruct (dtor p) as [|i| |i|i|] eqn:Hd.
  - injection Hstep as <-. by autorewrite with counts.
  - case_bool_decide.
    + apply on_queue_Step in Hstep
        as (qs & q & r & q' & ns & Hqs & Hq & Hop & [= <-]).
      pose proof (queued_insert id p qs i q q' Hqs Hq) as Hcount.
      rewrite (close_count q q' r ns Hop) in Hcount.
      autorewrite with counts. lia.
    + injection Hstep as <-. by autorewrite with counts.
  - injection Hstep as <-. autorewrite with counts. simpl. lia.
  - destruct (threads p !! i) as [th|] eqn:Hth.
    + injection Hstep as <-.
      pose proof (held_insert id p i th (mkThread true (pc th) (task th)) Hth)
        as Hcount.
      change (pending (mkThread true (pc th) (task th))) with (pending th) in Hcount.
      autorewrite with counts. lia.
    + injection Hstep as <-. by autorewrite with counts.
  - destruct (threads p !! i) as [th|]; [|done].
    destruct (pc th); try done. injection Hstep as <-. by autorewrite with counts.
  - done.
Qed.

(** In a goal about a pool whose thread [idx] was replaced, bring in what
    the replacement did to the pending targets. *)
Ltac count_thread Hheld :=
  autorewrite with counts;
  match goal with
  | |- context [held (set_thread _ ?th' ?p0)] =>
      let H := fresh "Hth'" in
      pose proof (Hheld p0 th' eq_refl) as H;
      unfold pending at 1 in H; simpl in H;
      autorewrite with counts in H
  end.

Lemma worker_accounted ids idx draw p p' :
  accounted ids p → worker idx draw p = Step p' → accounted ids p'.
Proof.
  intros Hinv Hstep id. destruct (Hinv id) as [Hle Heq].
  unfold worker, worker_step in Hstep.
  destruct (threads p !! idx) as [th|] eqn:Hth; [|done].
  assert (Hheld : ∀ p0 th', threads p0 = threads p →
            times id (held (set_thread idx th' p0)) + times id (pending th)
            = times id (held p0) + times id (pending th')).
  { intros p0 th' Hp0. apply held_insert. by rewrite Hp0. }
  unfold pending at 1 in Hheld. cbv zeta in Hstep.
  destruct (pc th) eqn:Hpc.
  - (* LoopTop *)
    destruct (stop_requested th); injection Hstep as <-;
      count_thread Hheld; lia.
  - (* TryPop *)
    apply on_queue_Step in Hstep as (qs & q & r & q' & ns & Hqs & Hq & Hop & Hk).
    pose proof (queued_insert id p qs idx q q' Hqs Hq) as Hcount.
    pose proof (try_pop_count id q q' r ns Hop) as Hpop.
    destruct r as [f|]; injection Hk as <-; count_thread Hheld;
      simpl in Hpop; autorewrite with counts in *; lia.
  - (* CallPopped *)
    unfold call in Hstep. destruct (task th) as [|tid] eqn:Htask; [done|].
    injection Hstep as <-. count_thread Hheld. simpl in *. lia.
  - (* GetRandom *)
    destruct (work_queues p); [|done]. destruct (get_random draw p); [|done].
    injection Hstep as <-. count_thread Hheld. lia.
  - (* TrySteal *)
    apply on_queue_Step in Hstep as (qs & q & r & q' & ns & Hqs & Hq & Hop & Hk).
    pose proof (queued_insert id p qs i q q' Hqs Hq) as Hcount.
    pose proof (try_steal_count id q q' r ns Hop) as Hpop.
    destruct r as [f|]; injection Hk as <-; count_thread Hheld;
      simpl in Hpop; autorewrite with counts in *; lia.
  - (* CallStolen *)
    unfold call in Hstep. destruct (task th) as [|tid] eqn:Htask; [done|].
    injection Hstep as <-. count_thread Hheld. simpl in *. lia.
  - (* WaitAndPop *)
    apply on_queue_Step in Hstep as (qs & q & r & q' & ns & Hqs & Hq & Hop & Hk).
    pose proof (queued_insert id p qs idx q q' Hqs Hq) as Hcount.
    pose proof (wait_and_pop_count id q q' r ns Hop) as Hpop.
    destruct r as [f|]; injection Hk as <-; count_thread Hheld;
      simpl in Hpop; autorewrite with counts in *; lia.
  - (* CallWaited *)
    unfold call in Hstep. destruct (task th) as [|tid] eqn:Htask.
    + injection Hstep as <-. count_thread Hheld. simpl in *.
      autorewrite with counts in *. lia.
    + injection Hstep as <-. count_thread Hheld. simpl in *. lia.
  - done.
Qed.

Lemma submitted_cons a acts :
  submitted (a :: acts) =
    match a with Submit f _ => target_id f | _ => [] end ++ submitted acts.
Proof. reflexivity. Qed.

Lemma step_accounted ids a p p' :
  accounted ids p → step a p = Step p' →
  accounted (match a with Submit f _ => target_id f | _ => [] end ++ ids) p'.
Proof.
  intros Hinv Hstep. destruct a as [func draw|idx draw|]; simpl in Hstep.
  - by eapply submit_accounted.
  - by eapply worker_accounted.
  - by eapply destructor_accounted.
Qed.

Lemma run_accounted acts ids p p' :
  accounted ids p → run acts p = Step p' →
  ∀ id, times id (queued p') + times id (took p')
          ≤ times id (submitted acts) + times id ids ∧
        times id (took p') = times id (held p') + times id (ran p').
Proof.
  revert ids p. induction acts as [|a acts IH]; intros ids p Hinv Hrun id.
  - injection Hrun as <-. destruct (Hinv id). split; [|done].
    unfold submitted. simpl. lia.
  - simpl in Hrun. destruct (step a p) as [p1| | | |] eqn:Hstep; try done.
    destruct (IH _ _ (step_accounted ids a p p1 Hinv Hstep) Hrun id) as [Hle Heq].
    split; [|done].
    rewrite submitted_cons. rewrite !times_app in *. lia.
Qed.

(** Along any interleaving from a new pool, a target is called at most as
    often as it was handed out by a pop or steal, and handed out at most
    as often as it was submitted. *)
Lemma calls_bounded_by_submissions acts hc p id :
  run acts (ThreadPool_ctor hc) = Step p →
  times id (ran p) ≤ times id (took p) ∧
  times id (took p) ≤ times id (submitted acts).
Proof.
  intros Hrun.
  destruct (run_accounted acts [] _ p (accounted_ctor hc) Hrun id) as [Hle Heq].
  rewrite times_nil in Hle. lia.
Qed.

(** C7. Whatever the interleaving of submitters, workers and the
    destroying thread run from a new pool (every pop and steal being one
    critical section on its deque), a target submitted exactly once is
    called at most once, over all workers, and is returned by at most one
    pop or steal. *)
Theorem at_most_once_execution (acts : list action) (hc : Z) (p : ThreadPool) (id : nat) :
  run acts (ThreadPool_ctor hc) = Step p →
  times id (submitted acts) = 1 →
  times id (ran p) ≤ 1 ∧ times id (took p) ≤ 1.
Proof.
  intros Hrun Honce.
  destruct (calls_bounded_by_submissions acts hc p id Hrun). lia.
Qed.

Lemma at_most_once_execution_witness :
  ∃ p,
    run [Submit (Target 1) 0; Submit (Target 2) 1; Worker 1 0; Worker 1 0;
         Worker 1 0; Worker 0 0; Worker 0 0; Worker 1 0; Worker 0 0]
        (ThreadPool_ctor 2) = Step p ∧
    times 1 (submitted [Submit (Target 1) 0; Submit (Target 2) 1; Worker 1 0;
                        Worker 1 0; Worker 1 0; Worker 0 0; Worker 0 0;
                        Worker 1 0; Worker 0 0]) = 1 ∧
    ran p = [1; 2] ∧
    times 1 (ran p) ≤ 1 ∧ times 1 (took p) ≤ 1.
Proof.
  eexists. split; [vm_compute; reflexivity|]. split; [reflexivity|].
  split; [reflexivity|].
  apply (at_most_once_execution
           [Submit (Target 1) 0; Submit (Target 2) 1; Worker 1 0; Worker 1 0;
            Worker 1 0; Worker 0 0; Worker 0 0; Worker 1 0; Worker 0 0] 2);
    reflexivity.
Defined.

(* ================================================================== *)
(** * The pool: teardown *)
(* ================================================================== *)

(** A worker step replaces the stepping thread, which had not exited, and
    nothing else of what the joins look at. *)
Lemma worker_frame idx draw p p' :
  worker idx draw p = Step p' →
  ∃ th th', threads p !! idx = Some th ∧ pc th ≠ Exited ∧
            threads p' = <[idx := th']> (threads p) ∧ dtor p' = dtor p.
Proof.
  unfold worker, worker_step. intros Hstep.
  destruct (threads p !! idx) as [th|] eqn:Hth; [|done].
  cbv zeta in Hstep. exists th.
  destruct (pc th) eqn:Hpc.
  - destruct (stop_requested th); injection Hstep as <-; by eexists.
  - apply on_queue_Step in Hstep as (qs & q & r & q' & ns & _ & _ & _ & Hk).
    destruct r; injection Hk as <-; by eexists.
  - unfold call in Hstep. destruct (task th); [done|].
    injection Hstep as <-. by eexists.
  - destruct (work_queues p); [|done]. destruct (get_random draw p); [|done].
    injection Hstep as <-. by eexists.
  - apply on_queue_Step in Hstep as (qs & q & r & q' & ns & _ & _ & _ & Hk).
    destruct r; injection Hk as <-; by eexists.
  - unfold call in Hstep. destruct (task th); [done|].
    injection Hstep as <-. by eexists.
  - apply on_queue_Step in Hstep as (qs & q & r & q' & ns & _ & _ & _ & Hk).
    destruct r; injection Hk as <-; by eexists.
  - unfold call in Hstep. destruct (task th); injection Hstep as <-; by eexists.
  - done.
Qed.

Lemma exited_insert_other p p' idx th th' j :
  threads p !! idx = Some th → pc th ≠ Exited →
  threads p' = <[idx := th']> (threads p) →
  exited p j → exited p' j.
Proof.
  intros Hth Hpc Hthreads Hj th1. rewrite Hthreads.
  destruct (decide (idx = j)) as [->|Hne].
  - destruct Hpc. by apply Hj.
  - rewrite list_lookup_insert_ne by done. apply Hj.
Qed.

Lemma step_joined a p p' : joined p → step a p = Step p' → joined p'.
Proof.
  intros Hj Hstep. destruct a as [func draw|idx draw|]; simpl in Hstep.
  - unfold submit in Hstep.
    destruct (work_queues p); [|done]. destruct (get_random draw p); [|done].
    apply on_queue_Step in Hstep as (qs & q & r & q' & ns & _ & _ & _ & [= <-]).
    exact Hj.
  - apply worker_frame in Hstep as (th & th' & Hth & Hpc & Hthreads & Hd).
    unfold joined in *. rewrite Hd.
    destruct (dtor p); try done; intros j;
      eauto using exited_insert_other.
  - unfold destructor in Hstep. unfold joined in Hj.
    destruct (dtor p) as [|i| |i|i|] eqn:Hd.
    + by injection Hstep as <-.
    + case_bool_decide.
      * by apply on_queue_Step in Hstep
          as (qs & q & r & q' & ns & _ & _ & _ & [= <-]).
      * by injection Hstep as <-.
    + injection Hstep as <-. intros j Hlt. lia.
    + destruct (threads p !! i) as [th|] eqn:Hth; injection Hstep as <-.
      * intros j Hlt th1. unfold set_dtor, set_thread. simpl.
        rewrite list_lookup_insert_ne by lia. by apply Hj.
      * intros j th1 Hth1. simpl in Hth1. apply (Hj j); [|done].
        apply lookup_lt_Some in Hth1. apply lookup_ge_None in Hth. lia.
    + destruct (threads p !! i) as [th|] eqn:Hth; [|done].
      destruct (pc th) eqn:Hpc; try done. injection Hstep as <-.
      intros j Hlt th1 Hth1. simpl in Hth1.
      destruct (decide (j = i)) as [->|]; [congruence|].
      apply (Hj j); [lia|done].
    + done.
Qed.

Lemma run_joined acts p p' : joined p → run acts p = Step p' → joined p'.
Proof.
  revert p. induction acts as [|a acts IH]; intros p Hj Hrun.
  - by injection Hrun as <-.
  - simpl in Hrun. destruct (step a p) as [p1| | | |] eqn:Hstep; try done.
    eauto using step_joined.
Qed.

(** Along any interleaving from a new pool: when the destructor has
    returned, every worker thread has left its loop. *)
Lemma destroyed_after_workers_exit acts hc p :
  run acts (ThreadPool_ctor hc) = Step p →
  dtor p = Destroyed →
  Forall (λ th, pc th = Exited) (threads p).
Proof.
  intros Hrun Hd.
  assert (Hj : joined p) by (eapply run_joined; [|done]; done).
  unfold joined in Hj. rewrite Hd in Hj.
  apply Forall_lookup. intros j th Hth. by apply (Hj j).
Qed.

(** C1.  A pool with one worker.  Target 1 is submitted, popped by the
    worker and is being called when target 2 is submitted and stored in
    deque 0.  The destructor then runs: it requests stop on
    [stop_source_], closes deque 0, destroys [work_queues] and, in
    [~jthread], requests stop on the worker's token and joins.  The worker
    finishes target 1, finds its token set at the loop top and exits.  The
    destructor returns with every worker exited, and target 2, stored in a
    deque when the teardown began, was never called. *)
Theorem teardown_drops_queued_task :
  ∃ p0 p1,
    run [Submit (Target 1) 0; Worker 0 0; Worker 0 0; Submit (Target 2) 0]
        (ThreadPool_ctor 1) = Step p0 ∧
    dtor p0 = Alive ∧ queued p0 = [2] ∧ ran p0 = [] ∧
    run [Destructor; Destructor; Destructor; Destructor; Destructor;
         Worker 0 0; Worker 0 0; Destructor; Destructor] p0 = Step p1 ∧
    dtor p1 = Destroyed ∧
    Forall (λ th, pc th = Exited) (threads p1) ∧
    ran p1 = [1] ∧ times 2 (ran p1) = 0.
Proof.
  do 2 eexists. split; [vm_compute; reflexivity|].
  split; [reflexivity|]. split; [reflexivity|]. split; [reflexivity|].
  split; [vm_compute; reflexivity|].
  split; [reflexivity|]. split; [|split; reflexivity].
  repeat constructor.
Qed.

(* ================================================================== *)
(** * More on the deque *)
(* ================================================================== *)


Lemma wait_and_pop_defined {T} (d : ThreadSafeDeque T) :
  wait_and_pop d ≠ Undefined.
Proof.
  destruct (snoc_cases (deque_ d)) as [Hnil | (l & v & Hsnoc)].
  - rewrite (wait_and_pop_nil d Hnil). by destruct (done_ d).
  - by rewrite (wait_and_pop_snoc d l v Hsnoc).
Qed.

Lemma push_blocked_iff {T} (d : ThreadSafeDeque T) (v : T) :
  push v d = Deque.Blocked ↔ max_size_ d ≤ size d ∧ done_ d = false.
Proof.
  rewrite push_unfold. destruct (done_ d).
  - split; [done|]. by intros [_ ?].
  - case_bool_decide; split; try done; [intros [? _]; lia|intros _; split; [lia|done]].
Qed.


(** X1. No operation of the deque ever calls [back()], [front()],
    [pop_back()] or [pop_front()] on an empty container, whatever the
    state it is called in; and try_pop, try_steal and close never wait. *)
Theorem deque_never_undefined {T} (d : ThreadSafeDeque T) (value : T) :
  push value d ≠ Undefined ∧ try_pop d ≠ Undefined ∧ try_steal d ≠ Undefined ∧
  wait_and_pop d ≠ Undefined ∧ close d ≠ Undefined ∧
  try_pop d ≠ Deque.Blocked ∧ try_steal d ≠ Deque.Blocked ∧
  close d ≠ Deque.Blocked.
Proof.
  assert (Hpush : push value d ≠ Undefined).
  { rewrite push_unfold. destruct (done_ d); [done|]. by case_bool_decide. }
  assert (Hpop : try_pop d ≠ Undefined ∧ try_pop d ≠ Deque.Blocked).
  { destruct (snoc_cases (deque_ d)) as [Hnil | (l & v & Hsnoc)].
    - by rewrite (try_pop_nil d Hnil).
    - by rewrite (try_pop_snoc d l v Hsnoc). }
  assert (Hsteal : try_steal d ≠ Undefined ∧ try_steal d ≠ Deque.Blocked).
  { destruct (cons_cases (deque_ d)) as [Hnil | (v & l & Hcons)].
    - by rewrite (try_steal_nil d Hnil).
    - by rewrite (try_steal_cons d v l Hcons). }
  assert (Hwait : wait_and_pop d ≠ Undefined)
    by apply wait_and_pop_defined.
  destruct Hpop, Hsteal. by rewrite close_unfold.
Qed.

(** X2. try_pop and try_steal return nothing exactly when the deque is
    empty, and then leave it untouched; otherwise each removes exactly one
    element: the stored sequence is the old one without its last
    (try_pop) or first (try_steal) element. *)
Theorem try_remove_one {T} (d : ThreadSafeDeque T) :
  (returned (try_pop d) = Some None ↔ deque_ d = []) ∧
  (returned (try_steal d) = Some None ↔ deque_ d = []) ∧
  (deque_ d = [] → state_after d (try_pop d) = d ∧ state_after d (try_steal d) = d) ∧
  (∀ v, returned (try_pop d) = Some (Some v) →
        deque_ d = deque_ (state_after d (try_pop d)) ++ [v]) ∧
  (∀ v, returned (try_steal d) = Some (Some v) →
        deque_ d = v :: deque_ (state_after d (try_steal d))).
Proof.
  split; [|split; [|split; [|split]]].
  - destruct (snoc_cases (deque_ d)) as [Hnil | (l & v & Hsnoc)].
    + by rewrite (try_pop_nil d Hnil).
    + rewrite (try_pop_snoc d l v Hsnoc), Hsnoc. simpl.
      split; [done|]. by destruct l.
  - destruct (cons_cases (deque_ d)) as [Hnil | (v & l & Hcons)].
    + by rewrite (try_steal_nil d Hnil).
    + by rewrite (try_steal_cons d v l Hcons), Hcons.
  - intros Hnil. by rewrite (try_pop_nil d Hnil), (try_steal_nil d Hnil).
  - intros v. destruct (snoc_cases (deque_ d)) as [Hnil | (l & w & Hsnoc)].
    + by rewrite (try_pop_nil d Hnil).
    + rewrite (try_pop_snoc d l w Hsnoc). simpl. by intros [= ->].
  - intros v. destruct (cons_cases (deque_ d)) as [Hnil | (w & l & Hcons)].
    + by rewrite (try_steal_nil d Hnil).
    + rewrite (try_steal_cons d w l Hcons). simpl. by intros [= ->].
Qed.

Lemma try_remove_one_witness :
  deque_ (mkDeque ([] : list nat) 50 false) = [] ∧
  state_after (mkDeque ([] : list nat) 50 false)
    (try_pop (mkDeque ([] : list nat) 50 false)) = mkDeque [] 50 false ∧
  returned (try_steal (mkDeque [4; 5; 6] 50 false)) = Some (Some 4) ∧
  deque_ (mkDeque [4; 5; 6] 50 false) =
    4 :: deque_ (state_after (mkDeque [4; 5; 6] 50 false)
                   (try_steal (mkDeque [4; 5; 6] 50 false))).
Proof.
  split; [reflexivity|]. split; [|split; [reflexivity|]].
  - by apply (try_remove_one (mkDeque ([] : list nat) 50 false)).
  - by apply (try_remove_one (mkDeque [4; 5; 6] 50 false)).
Defined.



Lemma drain_None {T} (op : locked T (option T)) fuel d d1 ns :
  op d = Done None d1 ns → drain op (S fuel) d = Done [] d1 (ns ++ []).
Proof. intros Hop. cbn [drain]. unfold mbind, locked_bind. by rewrite Hop. Qed.

Lemma drain_Some {T} (op : locked T (option T)) fuel d v d1 ns r d2 :
  op d = Done (Some v) d1 ns →
  returned (drain op fuel d1) = Some r →
  state_after d1 (drain op fuel d1) = d2 →
  returned (drain op (S fuel) d) = Some (v :: r) ∧
  state_after d (drain op (S fuel) d) = d2.
Proof.
  intros Hop Hr Hs. cbn [drain]. unfold mbind, locked_bind. rewrite Hop.
  destruct (drain op fuel d1) as [| |r' d' ns']; try done.
  simpl in *. by simplify_eq.
Qed.

Lemma drain_Blocked {T} (op : locked T (option T)) fuel d v d1 ns :
  op d = Done (Some v) d1 ns →
  drain op fuel d1 = Deque.Blocked →
  drain op (S fuel) d = Deque.Blocked.
Proof.
  intros Hop Hb. cbn [drain]. unfold mbind, locked_bind. by rewrite Hop, Hb.
Qed.

Lemma drain_try_pop {T} (l : list T) n b fuel :
  length l ≤ fuel →
  returned (drain try_pop fuel (mkDeque l n b)) = Some (rev l) ∧
  state_after (mkDeque l n b) (drain try_pop fuel (mkDeque l n b)) = mkDeque [] n b.
Proof.
  revert fuel. induction l as [|v l IH] using rev_ind; intros fuel Hfuel.
  - destruct fuel as [|fuel]; [done|].
    by rewrite (drain_None _ _ _ _ _ (try_pop_nil (mkDeque [] n b) eq_refl)).
  - rewrite length_app in Hfuel. simpl in Hfuel.
    destruct fuel as [|fuel]; [lia|].
    destruct (IH fuel ltac:(lia)) as [Hr Hs].
    rewrite rev_app_distr. simpl.
    by apply (drain_Some _ _ _ _ _ _ _ _
                (try_pop_snoc (mkDeque (l ++ [v]) n b) l v eq_refl)).
Qed.

Lemma drain_try_steal {T} (l : list T) n b fuel :
  length l ≤ fuel →
  returned (drain try_steal fuel (mkDeque l n b)) = Some l ∧
  state_after (mkDeque l n b) (drain try_steal fuel (mkDeque l n b)) = mkDeque [] n b.
Proof.
  revert fuel. induction l as [|v l IH]; intros fuel Hfuel.
  - destruct fuel as [|fuel]; [done|].
    by rewrite (drain_None _ _ _ _ _ (try_steal_nil (mkDeque [] n b) eq_refl)).
  - simpl in Hfuel. destruct fuel as [|fuel]; [lia|].
    destruct (IH fuel ltac:(lia)) as [Hr Hs].
    by apply (drain_Some _ _ _ _ _ _ _ _
                (try_steal_cons (mkDeque (v :: l) n b) v l eq_refl)).
Qed.

Lemma drain_wait_and_pop_closed {T} (l : list T) n fuel :
  length l ≤ fuel →
  returned (drain wait_and_pop fuel (mkDeque l n true)) = Some (rev l) ∧
  state_after (mkDeque l n true) (drain wait_and_pop fuel (mkDeque l n true))
    = mkDeque [] n true.
Proof.
  revert fuel. induction l as [|v l IH] using rev_ind; intros fuel Hfuel.
  - destruct fuel as [|fuel]; [done|].
    by rewrite (drain_None _ _ _ _ _
                  (wait_and_pop_nil (mkDeque [] n true) eq_refl)).
  - rewrite length_app in Hfuel. simpl in Hfuel.
    destruct fuel as [|fuel]; [lia|].
    destruct (IH fuel ltac:(lia)) as [Hr Hs].
    rewrite rev_app_distr. simpl.
    by apply (drain_Some _ _ _ _ _ _ _ _
                (wait_and_pop_snoc (mkDeque (l ++ [v]) n true) l v eq_refl)).
Qed.

(** X4. Whatever a deque holds, a thread that keeps calling try_pop until
    it gets nothing (other threads keeping away) receives the whole stored
    sequence newest first, and one that keeps calling try_steal receives
    it oldest first; either way the deque ends up empty, its bound and
    closed flag unchanged.  On a closed deque, repeated wait_and_pop
    calls drain it newest first in the same way and then report the end
    instead of waiting; on an open one the call after the last element
    waits. *)
Theorem drain_order {T} (d : ThreadSafeDeque T) (fuel : nat) :
  size d ≤ fuel →
  let emptied := mkDeque [] (max_size_ d) (done_ d) in
  (returned (drain try_pop fuel d) = Some (rev (deque_ d)) ∧
   state_after d (drain try_pop fuel d) = emptied) ∧
  (returned (drain try_steal fuel d) = Some (deque_ d) ∧
   state_after d (drain try_steal fuel d) = emptied) ∧
  (done_ d = true →
     returned (drain wait_and_pop fuel d) = Some (rev (deque_ d)) ∧
     state_after d (drain wait_and_pop fuel d) = emptied) ∧
  (done_ d = false →
     drain wait_and_pop (S (size d)) d = Deque.Blocked).
Proof.
  destruct d as [l n b]. unfold size. simpl. intros Hfuel.
  split; [by apply drain_try_pop|]. split; [by apply drain_try_steal|].
  split; [intros ->; by apply drain_wait_and_pop_closed|].
  intros ->. clear fuel Hfuel.
  induction l as [|v l IH] using rev_ind.
  - done.
  - rewrite length_app. simpl. replace (length l + 1) with (S (length l)) by lia.
    by apply (drain_Blocked _ _ _ _ _ _
                (wait_and_pop_snoc (mkDeque (l ++ [v]) n false) l v eq_refl)).
Qed.

Lemma drain_order_witness :
  size (mkDeque [1; 2; 3] 50 true) ≤ 5 ∧
  returned (drain try_pop 5 (mkDeque [1; 2; 3] 50 true)) = Some [3; 2; 1] ∧
  returned (drain try_steal 5 (mkDeque [1; 2; 3] 50 true)) = Some [1; 2; 3] ∧
  returned (drain wait_and_pop 5 (mkDeque [1; 2; 3] 50 true)) = Some [3; 2; 1].
Proof.
  assert (H : size (mkDeque [1; 2; 3] 50 true) ≤ 5) by (unfold size; simpl; lia).
  destruct (drain_order (mkDeque [1; 2; 3] 50 true) 5 H)
    as ([Hpop _] & [Hsteal _] & Hwait & _).
  split; [exact H|]. split; [exact Hpop|]. split; [exact Hsteal|].
  by apply Hwait.
Defined.

(** X5. The owner's try_pop and a thief's try_steal do not get in each
    other's way while the deque holds two elements or more: in either
    order the thief receives the front element, the owner the back one,
    and the same middle part is left.  On a deque of one element exactly
    one of the two receives it, the one that comes first. *)
Theorem pop_steal_commute {T} (d : ThreadSafeDeque T) :
  (∀ a mid b, deque_ d = a :: mid ++ [b] →
     let left := mkDeque mid (max_size_ d) (done_ d) in
     returned ((x ← try_steal; y ← try_pop; mret (x, y)) d) = Some (Some a, Some b) ∧
     returned ((y ← try_pop; x ← try_steal; mret (x, y)) d) = Some (Some a, Some b) ∧
     state_after d ((x ← try_steal; y ← try_pop; mret (x, y)) d) = left ∧
     state_after d ((y ← try_pop; x ← try_steal; mret (x, y)) d) = left) ∧
  (∀ a, deque_ d = [a] →
     returned ((x ← try_steal; y ← try_pop; mret (x, y)) d) = Some (Some a, None) ∧
     returned ((y ← try_pop; x ← try_steal; mret (x, y)) d) = Some (None, Some a)).
Proof.
  destruct d as [l n b]. simpl. split.
  - intros a mid z ->.
    pose proof (try_steal_cons (mkDeque (a :: mid ++ [z]) n b) a (mid ++ [z]) eq_refl)
      as Hs1.
    pose proof (try_pop_snoc (mkDeque (mid ++ [z]) n b) mid z eq_refl) as Hp1.
    pose proof (try_pop_snoc (mkDeque (a :: mid ++ [z]) n b) (a :: mid) z eq_refl)
      as Hp2.
    pose proof (try_steal_cons (mkDeque (a :: mid) n b) a mid eq_refl) as Hs2.
    cbn [deque_ max_size_ done_ app] in *.
    rewrite (bind_Done _ _ _ _ _ _ Hs1), (bind_Done _ _ _ _ _ _ Hp1).
    rewrite (bind_Done _ _ _ _ _ _ Hp2), (bind_Done _ _ _ _ _ _ Hs2).
    cbv beta. done.
  - intros a ->.
    pose proof (try_steal_cons (mkDeque [a] n b) a [] eq_refl) as Hs1.
    pose proof (try_pop_nil (mkDeque ([] : list T) n b) eq_refl) as Hp1.
    pose proof (try_pop_snoc (mkDeque [a] n b) [] a eq_refl) as Hp2.
    pose proof (try_steal_nil (mkDeque ([] : list T) n b) eq_refl) as Hs2.
    cbn [deque_ max_size_ done_ app] in *.
    rewrite (bind_Done _ _ _ _ _ _ Hs1), (bind_Done _ _ _ _ _ _ Hp1).
    rewrite (bind_Done _ _ _ _ _ _ Hp2), (bind_Done _ _ _ _ _ _ Hs2).
    cbv beta. done.
Qed.

Lemma pop_steal_commute_witness :
  deque_ (mkDeque [1; 2; 3; 4] 50 false) = 1 :: [2; 3] ++ [4] ∧
  returned ((x ← try_steal; y ← try_pop; mret (x, y)) (mkDeque [1; 2; 3; 4] 50 false))
    = Some (Some 1, Some 4) ∧
  state_after (mkDeque [1; 2; 3; 4] 50 false)
    ((y ← try_pop; x ← try_steal; mret (x, y)) (mkDeque [1; 2; 3; 4] 50 false))
    = mkDeque [2; 3] 50 false.
Proof.
  destruct (pop_steal_commute (mkDeque [1; 2; 3; 4] 50 false)) as [Hmany _].
  destruct (Hmany 1 [2; 3] 4 eq_refl) as (H1 & _ & _ & H4).
  split; [reflexivity|]. by split.
Defined.



(** X7. Backpressure lasts exactly one removal.  On an open deque that is
    full (and whose bound is not zero) push waits; after a single try_pop,
    try_steal or wait_and_pop it goes through, and the deque is full
    again, so a second push waits. *)
Theorem backpressure {T} (d : ThreadSafeDeque T) (v w : T) (op : operation T) :
  done_ d = false → size d = max_size_ d → 0 < max_size_ d →
  op = OpTryPop ∨ op = OpTrySteal ∨ op = OpWaitAndPop →
  push v d = Deque.Blocked ∧
  (∃ d', push v (perform op d) = Done tt d' [NotifyOne cv_not_empty_] ∧
         size d' = max_size_ d ∧ done_ d' = false ∧
         push w d' = Deque.Blocked).
Proof.
  intros Hopen Hfull Hpos Hop.
  split; [apply push_blocked_iff; split; [lia|done]|].
  assert (Hrem : ∃ l, deque_ (perform op d) = l ∧ S (length l) = max_size_ d ∧
            max_size_ (perform op d) = max_size_ d ∧ done_ (perform op d) = false).
  { unfold size in Hfull.
    destruct Hop as [-> | [-> | ->]]; simpl.
    - destruct (snoc_cases (deque_ d)) as [Hnil | (l & u & Hsnoc)].
      + rewrite Hnil in Hfull. simpl in Hfull. lia.
      + rewrite (try_pop_snoc d l u Hsnoc). simpl. exists l.
        rewrite Hsnoc, length_app in Hfull. simpl in Hfull.
        repeat split; [lia|done].
    - destruct (cons_cases (deque_ d)) as [Hnil | (u & l & Hcons)].
      + rewrite Hnil in Hfull. simpl in Hfull. lia.
      + rewrite (try_steal_cons d u l Hcons). simpl. exists l.
        rewrite Hcons in Hfull. simpl in Hfull. by repeat split.
    - destruct (snoc_cases (deque_ d)) as [Hnil | (l & u & Hsnoc)].
      + rewrite Hnil in Hfull. simpl in Hfull. lia.
      + rewrite (wait_and_pop_snoc d l u Hsnoc). simpl. exists l.
        rewrite Hsnoc, length_app in Hfull. simpl in Hfull.
        repeat split; [lia|done]. }
  destruct Hrem as (l & Hl & Hlen & Hmax & Hd).
  destruct (perform op d) as [l' n' b']. simpl in *. subst l' n' b'.
  exists (mkDeque (l ++ [v]) (max_size_ d) false).
  split; [apply push_open; lia|].
  unfold size. simpl. rewrite length_app. simpl.
  split; [lia|]. split; [done|].
  apply push_blocked_iff. unfold size. simpl. rewrite length_app. simpl.
  split; [lia|done].
Qed.

Lemma backpressure_witness :
  done_ (mkDeque [1; 2] 2 false) = false ∧
  size (mkDeque [1; 2] 2 false) = max_size_ (mkDeque [1; 2] 2 false) ∧
  0 < max_size_ (mkDeque [1; 2] 2 false) ∧
  push 3 (mkDeque [1; 2] 2 false) = Deque.Blocked ∧
  ∃ d', push 3 (perform OpTrySteal (mkDeque [1; 2] 2 false))
          = Done tt d' [NotifyOne cv_not_empty_] ∧
        size d' = max_size_ (mkDeque [1; 2] 2 false) ∧ done_ d' = false ∧
        push 4 d' = Deque.Blocked.
Proof.
  assert (Hpos : 0 < max_size_ (mkDeque [1; 2] 2 false)) by (simpl; lia).
  split; [reflexivity|]. split; [reflexivity|]. split; [exact Hpos|].
  apply (backpressure (mkDeque [1; 2] 2 false) 3 4 OpTrySteal
           eq_refl eq_refl Hpos).
  right. by left.
Defined.



(* ================================================================== *)
(** * More on the pool: what every step does *)
(* ================================================================== *)

(** What a step of each kind changes, and what it leaves alone. *)
Lemma submit_inv func draw p p' :
  submit func draw p = Step p' →
  ∃ qs q, work_queues p = Some qs ∧ draw < thread_count p ∧
          qs !! draw = Some q ∧ push func q ≠ Deque.Blocked ∧
          p' = set_queues (Some (<[draw := perform (OpPush func) q]> qs)) p.
Proof.
  unfold submit. intros Hstep.
  destruct (work_queues p) as [qs0|] eqn:Hqs0; [|done].
  destruct (get_random draw p) as [i|] eqn:Hdraw; [|done].
  unfold get_random in Hdraw. case_bool_decide; [|done]. injection Hdraw as <-.
  apply on_queue_Step in Hstep as (qs & q & r & q' & ns & Hqs & Hq & Hop & [= <-]).
  exists qs, q. simpl. rewrite Hop. simpl.
  split; [congruence|]. split; [lia|]. by repeat split.
Qed.

Lemma worker_inv idx draw p p' :
  worker idx draw p = Step p' →
  ∃ th th',
    threads p !! idx = Some th ∧ threads p' = <[idx := th']> (threads p) ∧
    dtor p' = dtor p ∧ stop_source_ p' = stop_source_ p ∧
    thread_count p' = thread_count p ∧
    stop_requested th' = stop_requested th ∧ pc th ≠ Exited ∧
    (∀ i, pc th' = TrySteal i → i < thread_count p) ∧
    (pc th' = Exited →
       stop_requested th = true ∨
       ∃ qs q, work_queues p = Some qs ∧ qs !! idx = Some q ∧ done_ q = true) ∧
    (work_queues p' = work_queues p ∨
     ∃ qs i q op, work_queues p = Some qs ∧ qs !! i = Some q ∧
       (op = OpTryPop ∨ op = OpTrySteal ∨ op = OpWaitAndPop) ∧
       work_queues p' = Some (<[i := perform op q]> qs)).
Proof.
  unfold worker, worker_step. intros Hstep.
  destruct (threads p !! idx) as [th|] eqn:Hth; [|done].
  cbv zeta in Hstep. exists th.
  destruct (pc th) eqn:Hpc.
  - destruct (stop_requested th) eqn:Hstop; injection Hstep as <-;
      eexists; simpl; do 7 (split; [done|]);
      (split; [done|]); (split; [by auto|]); by left.
  - apply on_queue_Step in Hstep as (qs & q & r & q' & ns & Hqs & Hq & Hop & Hk).
    destruct r; injection Hk as <-; eexists; simpl; do 7 (split; [done|]);
      (split; [done|]); (split; [done|]);
      right; exists qs, idx, q, OpTryPop; simpl; rewrite Hop; simpl;
      (split; [done|]); (split; [done|]); (split; [by left|done]).
  - unfold call in Hstep. destruct (task th); [done|].
    injection Hstep as <-. eexists; simpl; do 7 (split; [done|]).
    split; [done|]. split; [done|]. by left.
  - destruct (work_queues p) eqn:Hqs; [|done].
    destruct (get_random draw p) as [i|] eqn:Hdraw; [|done].
    injection Hstep as <-. eexists; simpl; do 7 (split; [done|]).
    split; [|split; [done|by left]].
    intros j [= <-]. unfold get_random in Hdraw.
    case_bool_decide; [|done]. injection Hdraw as <-. lia.
  - apply on_queue_Step in Hstep as (qs & q & r & q' & ns & Hqs & Hq & Hop & Hk).
    destruct r; injection Hk as <-; eexists; simpl; do 7 (split; [done|]);
      (split; [done|]); (split; [done|]);
      right; exists qs, i, q, OpTrySteal; simpl; rewrite Hop; simpl;
      (split; [done|]); (split; [done|]); (split; [by right; left|done]).
  - unfold call in Hstep. destruct (task th); [done|].
    injection Hstep as <-. eexists; simpl; do 7 (split; [done|]).
    split; [done|]. split; [done|]. by left.
  - apply on_queue_Step in Hstep as (qs & q & r & q' & ns & Hqs & Hq & Hop & Hk).
    assert (Hexit : r = None → done_ q = true).
    { intros ->. destruct (snoc_cases (deque_ q)) as [Hnil | (l & v & Hsnoc)].
      - rewrite (wait_and_pop_nil q Hnil) in Hop. by destruct (done_ q).
      - by rewrite (wait_and_pop_snoc q l v Hsnoc) in Hop. }
    destruct r; injection Hk as <-; eexists; simpl; do 7 (split; [done|]);
      (split; [done|]).
    + split; [done|]. right. exists qs, idx, q, OpWaitAndPop.
      simpl. rewrite Hop. simpl.
      split; [done|]. split; [done|]. split; [by right; right|done].
    + split; [intros _; right; exists qs, q; by auto|].
      right. exists qs, idx, q, OpWaitAndPop.
      simpl. rewrite Hop. simpl.
      split; [done|]. split; [done|]. split; [by right; right|done].
  - unfold call in Hstep.
    destruct (task th); injection Hstep as <-;
      eexists; simpl; do 7 (split; [done|]);
      (split; [done|]); (split; [done|]); by left.
  - done.
Qed.

Lemma destructor_inv p p' :
  destructor p = Step p' →
  (dtor p = Alive ∧ p' = set_dtor (StopWorkers 0) (set_stop_source true p)) ∨
  (∃ i qs q, dtor p = StopWorkers i ∧ i < thread_count p ∧
     work_queues p = Some qs ∧ qs !! i = Some q ∧
     p' = set_dtor (StopWorkers (S i))
            (set_queues (Some (<[i := perform OpClose q]> qs)) p)) ∨
  (∃ i, dtor p = StopWorkers i ∧ thread_count p ≤ i ∧
     p' = set_dtor DestroyQueues p) ∨
  (dtor p = DestroyQueues ∧ p' = set_dtor (DestroyThread 0) (set_queues None p)) ∨
  (∃ i th, dtor p = DestroyThread i ∧ threads p !! i = Some th ∧
     p' = set_dtor (JoinThread i)
            (set_thread i (mkThread true (pc th) (task th)) p)) ∨
  (∃ i, dtor p = DestroyThread i ∧ threads p !! i = None ∧
     p' = set_dtor Destroyed p) ∨
  (∃ i th, dtor p = JoinThread i ∧ threads p !! i = Some th ∧ pc th = Exited ∧
     p' = set_dtor (DestroyThread (S i)) p).
Proof.
  unfold destructor. intros Hstep. destruct (dtor p) as [|i| |i|i|] eqn:Hd.
  - left. by injection Hstep as <-.
  - case_bool_decide.
    + apply on_queue_Step in Hstep
        as (qs & q & r & q' & ns & Hqs & Hq & Hop & [= <-]).
      right; left. exists i, qs, q. rewrite close_unfold in Hop.
      injection Hop as <- <- <-. done.
    + right; right; left. exists i. injection Hstep as <-.
      split; [done|]. split; [lia|done].
  - do 3 right. left. by injection Hstep as <-.
  - destruct (threads p !! i) as [th|] eqn:Hth; injection Hstep as <-.
    + do 4 right. left. by exists i, th.
    + do 5 right. left. by exists i.
  - destruct (threads p !! i) as [th|] eqn:Hth; [|done].
    destruct (pc th) eqn:Hpc; try done. injection Hstep as <-.
    do 6 right. by exists i, th.
  - done.
Qed.

Lemma perform_shape (op : operation TaskFunc) (q : Queue) :
  max_size_ q = 50 ∧ size q ≤ 50 →
  max_size_ (perform op q) = 50 ∧ size (perform op q) ≤ 50.
Proof.
  intros [Hm Hs]. destruct (perform_invariant op q) as (Hm' & Hs' & _).
  split; [congruence|]. specialize (Hs' ltac:(lia)). lia.
Qed.

Lemma step_shaped n a p p' : shaped n p → step a p = Step p' → shaped n p'.
Proof.
  intros (Hn & Hlen & Hsteal & Hq) Hstep.
  destruct a as [func draw|idx draw|]; simpl in Hstep.
  - apply submit_inv in Hstep as (qs & q & Hqs & Hdraw & Hlook & _ & ->).
    unfold shaped. simpl. do 3 (split; [done|]).
    destruct (queues_destroyed (dtor p)); [congruence|].
    destruct Hq as (qs' & Hqs' & Hlen' & Hall). simplify_eq.
    eexists. split; [done|]. rewrite length_insert. split; [done|].
    apply Forall_insert; [done|]. apply (perform_shape (OpPush func)).
    by apply (proj1 (Forall_lookup _ _) Hall draw).
  - apply worker_inv in Hstep
      as (th & th' & Hth & Hthreads & Hd & _ & Htc & _ & _ & Hbound & _ & Hqueues).
    unfold shaped. rewrite Htc, Hthreads, length_insert, Hd.
    do 2 (split; [done|]). split.
    + intros j th1 i Hj Hpc.
      destruct (decide (idx = j)) as [->|Hne].
      * rewrite list_lookup_insert_eq in Hj by (by eapply lookup_lt_Some).
        injection Hj as <-. rewrite <- Hn. by apply Hbound.
      * rewrite list_lookup_insert_ne in Hj by done. by eapply Hsteal.
    + destruct Hqueues as [-> | (qs & i & q & op & Hqs & Hlook & _ & ->)]; [done|].
      destruct (queues_destroyed (dtor p)); [congruence|].
      destruct Hq as (qs' & Hqs' & Hlen' & Hall). simplify_eq.
      eexists. split; [done|]. rewrite length_insert. split; [done|].
      apply Forall_insert; [done|]. apply perform_shape.
      by apply (proj1 (Forall_lookup _ _) Hall i).
  - apply destructor_inv in Hstep
      as [[Hd ->] | [(i & qs & q & Hd & Hi & Hqs & Hlook & ->) |
         [(i & Hd & Hi & ->) | [[Hd ->] | [(i & th & Hd & Hth & ->) |
         [(i & Hd & Hth & ->) | (i & th & Hd & Hth & Hpc & ->)]]]]]];
      unfold shaped; simpl; rewrite Hd in Hq; simpl in Hq;
      rewrite ?length_insert; do 2 (split; [done|]).
    + done.
    + split; [done|]. destruct Hq as (qs' & Hqs' & Hlen' & Hall). simplify_eq.
      eexists. split; [done|]. rewrite length_insert. split; [done|].
      apply Forall_insert; [done|]. apply (perform_shape OpClose).
      by apply (proj1 (Forall_lookup _ _) Hall i).
    + done.
    + done.
    + split; [|done]. intros j th1 k Hj Hpc.
      destruct (decide (i = j)) as [->|Hne].
      * rewrite list_lookup_insert_eq in Hj by (by eapply lookup_lt_Some).
        injection Hj as <-. by eapply Hsteal.
      * rewrite list_lookup_insert_ne in Hj by done. by eapply Hsteal.
    + done.
    + done.
Qed.

Lemma shaped_ctor hc :
  shaped (thread_count (ThreadPool_ctor hc)) (ThreadPool_ctor hc).
Proof.
  unfold shaped. simpl. split; [done|]. split; [by rewrite length_replicate|].
  split.
  - intros idx th i Hth Hpc. apply lookup_replicate in Hth as [-> _]. done.
  - eexists. split; [done|]. split; [by rewrite length_replicate|].
    apply Forall_forall. intros q ->%elem_of_replicate_inv.
    unfold size. simpl. split; [done|lia].
Qed.

Lemma run_shaped n acts p p' : shaped n p → run acts p = Step p' → shaped n p'.
Proof.
  revert p. induction acts as [|a acts IH]; intros p Hs Hrun.
  - by injection Hrun as <-.
  - simpl in Hrun. destruct (step a p) as [p1| | | |] eqn:Hstep; try done.
    eauto using step_shaped.
Qed.

(** X9. Whatever the interleaving run on a new pool, the pool keeps its
    shape: the worker count is the one fixed at construction and there are
    as many threads; as long as [work_queues] exists it holds exactly one
    queue per worker, each of capacity 50 and holding at most 50 tasks, so
    the pool never holds more than 50 tasks per worker. *)
Theorem pool_shape_invariant (acts : list action) (hc : Z) (p : ThreadPool) :
  run acts (ThreadPool_ctor hc) = Step p →
  thread_count p = thread_count (ThreadPool_ctor hc) ∧
  length (threads p) = thread_count p ∧
  (∀ qs, work_queues p = Some qs →
     length qs = thread_count p ∧
     Forall (λ q, max_size_ q = 50 ∧ size q ≤ 50) qs ∧
     length (qs ≫= deque_) ≤ 50 * thread_count p).
Proof.
  intros Hrun.
  destruct (run_shaped _ acts _ p (shaped_ctor hc) Hrun) as (Hn & Hlen & _ & Hq).
  split; [done|]. split; [congruence|].
  intros qs Hqs. destruct (queues_destroyed (dtor p)); [congruence|].
  destruct Hq as (qs' & Hqs' & Hlen' & Hall). simplify_eq.
  split; [congruence|]. split; [done|].
  rewrite Hn, <- Hlen'. clear -Hall.
  induction Hall as [|q qs [_ Hq] _ IH]; [done|].
  rewrite bind_cons, length_app. unfold size in Hq. simpl. lia.
Qed.

Lemma pool_shape_invariant_witness :
  ∃ p, run [Submit (Target 1) 0; Submit (Target 2) 1; Worker 1 0; Destructor]
           (ThreadPool_ctor 2) = Step p ∧
       thread_count p = 2 ∧ length (threads p) = 2.
Proof.
  eexists. split; [vm_compute; reflexivity|].
  destruct (pool_shape_invariant
              [Submit (Target 1) 0; Submit (Target 2) 1; Worker 1 0; Destructor]
              2 _ eq_refl) as (H1 & H2 & _).
  split; [exact H1|exact H2].
Defined.

(* ================================================================== *)
(** * More on the pool: no undefined behaviour before the queues are destroyed *)
(* ================================================================== *)

Lemma on_queue_defined {A} i (op : locked TaskFunc A) k p qs :
  work_queues p = Some qs → i < length qs →
  (∀ q, op q ≠ Undefined) → (∀ r p1, k r p1 ≠ UB) →
  on_queue i op k p ≠ UB.
Proof.
  intros Hqs Hi Hop Hk. unfold on_queue. rewrite Hqs.
  destruct (lookup_lt_is_Some_2 qs i Hi) as [q ->].
  specialize (Hop q). destruct (op q); [done|done|apply Hk].
Qed.

Lemma try_pop_defined (q : Queue) : try_pop q ≠ Undefined.
Proof.
  destruct (snoc_cases (deque_ q)) as [Hnil | (l & v & Hsnoc)].
  - by rewrite (try_pop_nil q Hnil).
  - by rewrite (try_pop_snoc q l v Hsnoc).
Qed.

Lemma try_steal_defined (q : Queue) : try_steal q ≠ Undefined.
Proof.
  destruct (cons_cases (deque_ q)) as [Hnil | (v & l & Hcons)].
  - by rewrite (try_steal_nil q Hnil).
  - by rewrite (try_steal_cons q v l Hcons).
Qed.

Lemma push_defined (q : Queue) f : push f q ≠ Undefined.
Proof. rewrite push_unfold. destruct (done_ q); [done|]. by case_bool_decide. Qed.

Lemma step_defined n a p :
  shaped n p → queues_destroyed (dtor p) = false → step a p ≠ UB.
Proof.
  intros (Hn & Hlen & Hsteal & Hq) Halive. rewrite Halive in Hq.
  destruct Hq as (qs & Hqs & Hlenq & _).
  destruct a as [func draw|idx draw|]; simpl.
  - unfold submit. rewrite Hqs.
    destruct (get_random draw p) as [i|] eqn:Hdraw; [|done].
    unfold get_random in Hdraw. case_bool_decide; [|done]. injection Hdraw as <-.
    apply (on_queue_defined _ _ _ _ qs); [done|lia| |done].
    intros q. apply push_defined.
  - unfold worker. destruct (threads p !! idx) as [th|] eqn:Hth; [|done].
    assert (Hidx : idx < length qs).
    { apply lookup_lt_Some in Hth. lia. }
    unfold worker_step. destruct (pc th) eqn:Hpc.
    + by destruct (stop_requested th).
    + apply (on_queue_defined _ _ _ _ qs); [done|done|apply try_pop_defined|].
      by intros [f|] p1.
    + unfold call. by destruct (task th).
    + rewrite Hqs. by destruct (get_random draw p).
    + apply (on_queue_defined _ _ _ _ qs); [done| |apply try_steal_defined|].
      * rewrite Hlenq. by eapply Hsteal.
      * by intros [f|] p1.
    + unfold call. by destruct (task th).
    + apply (on_queue_defined _ _ _ _ qs);
        [done|done|apply wait_and_pop_defined|].
      by intros [f|] p1.
    + unfold call. by destruct (task th).
    + done.
  - unfold destructor. destruct (dtor p) as [|i| |i|i|]; try done.
    case_bool_decide; [|done].
    apply (on_queue_defined _ _ _ _ qs); [done|lia| |done].
    intros q. by rewrite close_unfold.
Qed.

Lemma run_UB_split acts p0 :
  run acts p0 = UB →
  ∃ acts1 a acts2 p, acts = acts1 ++ a :: acts2 ∧
                     run acts1 p0 = Step p ∧ step a p = UB.
Proof.
  revert p0. induction acts as [|a acts IH]; intros p0 Hrun; [done|].
  simpl in Hrun. destruct (step a p0) as [p1| | | |] eqn:Hstep; try done.
  - destruct (IH p1 Hrun) as (acts1 & b & acts2 & p & -> & Hrun1 & Hb).
    exists (a :: acts1), b, acts2, p. simpl. by rewrite Hstep.
  - by exists [], a, acts, p0.
Qed.

Lemma step_keeps_dtor a p p' :
  a ≠ Destructor → step a p = Step p' → dtor p' = dtor p.
Proof.
  intros Ha Hstep. destruct a as [func draw|idx draw|]; simpl in Hstep; [| |done].
  - by apply submit_inv in Hstep as (qs & q & _ & _ & _ & _ & ->).
  - by apply worker_inv in Hstep as (th & th' & _ & _ & Hd & _).
Qed.

Lemma run_keeps_dtor acts p p' :
  Forall (λ a, a ≠ Destructor) acts → run acts p = Step p' → dtor p' = dtor p.
Proof.
  revert p. induction acts as [|a acts IH]; intros p Hacts Hrun.
  - by injection Hrun as <-.
  - apply Forall_cons in Hacts as [Ha Hacts]. simpl in Hrun.
    destruct (step a p) as [p1| | | |] eqn:Hstep; try done.
    rewrite (IH p1 Hacts Hrun). by eapply step_keeps_dtor.
Qed.

(** X10. An interleaving run on a new pool meets undefined behaviour only
    at a step taken after the destroying thread has destroyed
    [work_queues]: up to that point no step indexes a queue out of range,
    calls [back()] or [front()] on an empty container or uses a destroyed
    member.  In particular an interleaving in which the destructor takes
    no step never meets undefined behaviour. *)
Theorem undefined_only_after_destruction (acts : list action) (hc : Z) :
  (run acts (ThreadPool_ctor hc) = UB →
   ∃ acts1 a acts2 p,
     acts = acts1 ++ a :: acts2 ∧ run acts1 (ThreadPool_ctor hc) = Step p ∧
     step a p = UB ∧ work_queues p = None ∧ queues_destroyed (dtor p) = true) ∧
  (Forall (λ a, a ≠ Destructor) acts → run acts (ThreadPool_ctor hc) ≠ UB).
Proof.
  assert (Hmain : run acts (ThreadPool_ctor hc) = UB →
    ∃ acts1 a acts2 p,
      acts = acts1 ++ a :: acts2 ∧ run acts1 (ThreadPool_ctor hc) = Step p ∧
      step a p = UB ∧ work_queues p = None ∧ queues_destroyed (dtor p) = true).
  { intros Hrun.
    destruct (run_UB_split acts _ Hrun) as (acts1 & a & acts2 & p & -> & Hrun1 & Hub).
    exists acts1, a, acts2, p. do 3 (split; [done|]).
    pose proof (run_shaped _ acts1 _ p (shaped_ctor hc) Hrun1) as Hs.
    destruct (queues_destroyed (dtor p)) eqn:Hd.
    - destruct Hs as (_ & _ & _ & Hq). by rewrite Hd in Hq.
    - by destruct (step_defined _ a p Hs Hd). }
  split; [exact Hmain|].
  intros Hacts Hrun.
  destruct (Hmain Hrun) as (acts1 & a & acts2 & p & -> & Hrun1 & _ & _ & Hd).
  apply Forall_app in Hacts as [Hacts1 _].
  by rewrite (run_keeps_dtor acts1 _ p Hacts1 Hrun1) in Hd.
Qed.

Lemma undefined_only_after_destruction_witness :
  run [Worker 0 0; Destructor; Destructor; Destructor; Destructor; Worker 0 0]
      (ThreadPool_ctor 1) = UB ∧
  ∃ acts1 a acts2 p,
    [Worker 0 0; Destructor; Destructor; Destructor; Destructor; Worker 0 0]
      = acts1 ++ a :: acts2 ∧
    run acts1 (ThreadPool_ctor 1) = Step p ∧
    step a p = UB ∧ work_queues p = None ∧ queues_destroyed (dtor p) = true.
Proof.
  split; [reflexivity|].
  by apply (undefined_only_after_destruction
              [Worker 0 0; Destructor; Destructor; Destructor; Destructor; Worker 0 0] 1).
Defined.

(* ================================================================== *)
(** * More on the pool: before the teardown *)
(* ================================================================== *)

Lemma perform_keeps_open (op : operation TaskFunc) (q : Queue) :
  op ≠ OpClose → done_ q = false → done_ (perform op q) = false.
Proof.
  intros Hop Hq. destruct op as [f| | | |]; simpl; [| | | |done].
  - rewrite push_unfold, Hq. by case_bool_decide.
  - destruct (snoc_cases (deque_ q)) as [Hnil | (l & v & Hsnoc)].
    + by rewrite (try_pop_nil q Hnil).
    + by rewrite (try_pop_snoc q l v Hsnoc).
  - destruct (cons_cases (deque_ q)) as [Hnil | (v & l & Hcons)].
    + by rewrite (try_steal_nil q Hnil).
    + by rewrite (try_steal_cons q v l Hcons).
  - destruct (snoc_cases (deque_ q)) as [Hnil | (l & v & Hsnoc)].
    + rewrite (wait_and_pop_nil q Hnil). by rewrite Hq.
    + by rewrite (wait_and_pop_snoc q l v Hsnoc).
Qed.

Lemma step_alive_back a p p' :
  step a p = Step p' → dtor p' = Alive → dtor p = Alive ∧ a ≠ Destructor.
Proof.
  intros Hstep Hd.
  assert (Hcases : a = Destructor ∨ a ≠ Destructor)
    by (destruct a; [by right|by right|by left]).
  destruct Hcases as [->|Ha].
  - simpl in Hstep. apply destructor_inv in Hstep
      as [[_ ->] | [(i & qs & q & _ & _ & _ & _ & ->) |
         [(i & _ & _ & ->) | [[_ ->] | [(i & th & _ & _ & ->) |
         [(i & _ & _ & ->) | (i & th & _ & _ & _ & ->)]]]]]]; done.
  - split; [|done]. by rewrite <- (step_keeps_dtor a p p' Ha Hstep).
Qed.

Lemma run_alive_back acts p p' :
  run acts p = Step p' → dtor p' = Alive → dtor p = Alive.
Proof.
  revert p. induction acts as [|a acts IH]; intros p Hrun Hd.
  - by injection Hrun as <-.
  - simpl in Hrun. destruct (step a p) as [p1| | | |] eqn:Hstep; try done.
    by apply (step_alive_back a p p1 Hstep), (IH p1).
Qed.

Lemma step_untouched a p p' :
  untouched p → a ≠ Destructor → step a p = Step p' → untouched p'.
Proof.
  intros (Hsrc & Hthreads & Hopen) Ha Hstep.
  destruct a as [func draw|idx draw|]; simpl in Hstep; [| |done].
  - apply submit_inv in Hstep as (qs & q & Hqs & _ & Hlook & _ & ->).
    unfold untouched. simpl. split; [done|]. split; [done|].
    intros qs' [= <-]. apply Forall_insert; [by apply Hopen|].
    apply (perform_keeps_open (OpPush func)); [done|].
    by apply (proj1 (Forall_lookup _ _) (Hopen qs Hqs) draw).
  - apply worker_inv in Hstep
      as (th & th' & Hth & Hthr & _ & Hs & _ & Hstop & _ & _ & Hexit & Hqueues).
    pose proof (proj1 (Forall_lookup _ _) Hthreads idx th Hth) as [Htok _].
    unfold untouched. rewrite Hs, Hthr. split; [done|]. split.
    + apply Forall_insert; [done|]. split; [congruence|].
      intros Hpc. destruct (Hexit Hpc) as [? | (qs & q & Hqs & Hlook & Hq)];
        [congruence|].
      pose proof (proj1 (Forall_lookup _ _) (Hopen qs Hqs) idx q Hlook).
      congruence.
    + destruct Hqueues as [-> | (qs & i & q & op & Hqs & Hlook & Hop & ->)];
        [done|].
      intros qs' [= <-]. apply Forall_insert; [by apply Hopen|].
      apply perform_keeps_open; [by destruct Hop as [-> | [-> | ->]]|].
      by apply (proj1 (Forall_lookup _ _) (Hopen qs Hqs) i).
Qed.

Lemma untouched_ctor hc : untouched (ThreadPool_ctor hc).
Proof.
  unfold untouched. simpl. split; [done|]. split.
  - apply Forall_forall. by intros th ->%elem_of_replicate_inv.
  - intros qs [= <-]. apply Forall_forall. by intros q ->%elem_of_replicate_inv.
Qed.

Lemma run_untouched acts p p' :
  untouched p → run acts p = Step p' → dtor p' = Alive → untouched p'.
Proof.
  revert p. induction acts as [|a acts IH]; intros p Hu Hrun Hd.
  - by injection Hrun as <-.
  - simpl in Hrun. destruct (step a p) as [p1| | | |] eqn:Hstep; try done.
    pose proof (run_alive_back acts p1 p' Hrun Hd) as Hd1.
    destruct (step_alive_back a p p1 Hstep Hd1) as [_ Ha].
    apply (IH p1); [|done|done]. by eapply step_untouched.
Qed.

(** X11. Nothing winds the pool down before its destructor is entered.
    In every state reached from a new pool in which the destructor has
    not taken a step, no stop has been requested on [stop_source_] or on
    any worker's token, no worker has left its loop and no deque is
    closed; and a submit that returns in such a state has stored its task
    at the back of the deque it drew, none being dropped. *)
Theorem alive_pool_untouched (acts : list action) (hc : Z) (p : ThreadPool) :
  run acts (ThreadPool_ctor hc) = Step p → dtor p = Alive →
  stop_source_ p = false ∧
  Forall (λ th, stop_requested th = false ∧ pc th ≠ Exited) (threads p) ∧
  (∃ qs, work_queues p = Some qs ∧ Forall (λ q, done_ q = false) qs) ∧
  (∀ func draw p', submit func draw p = Step p' →
     ∃ qs q, work_queues p = Some qs ∧ qs !! draw = Some q ∧
             work_queues p' =
               Some (<[draw := mkDeque (deque_ q ++ [func]) 50 false]> qs)).
Proof.
  intros Hrun Hd.
  destruct (run_untouched acts _ p (untouched_ctor hc) Hrun Hd)
    as (Hsrc & Hthreads & Hopen).
  destruct (run_shaped _ acts _ p (shaped_ctor hc) Hrun) as (_ & _ & _ & Hq).
  rewrite Hd in Hq. simpl in Hq. destruct Hq as (qs & Hqs & _ & Hall).
  split; [done|]. split; [done|]. split; [by exists qs; auto|].
  intros func draw p' Hsubmit.
  apply submit_inv in Hsubmit as (qs' & q & Hqs' & _ & Hlook & Hnb & ->).
  simplify_eq. exists qs, q. split; [done|]. split; [done|]. simpl.
  pose proof (proj1 (Forall_lookup _ _) (Hopen qs Hqs) draw q Hlook) as Hq.
  pose proof (proj1 (Forall_lookup _ _) Hall draw q Hlook) as [Hmax _].
  rewrite push_unfold in Hnb. rewrite push_unfold. rewrite Hq in *.
  case_bool_decide; [|done]. simpl. by rewrite Hmax.
Qed.

Lemma alive_pool_untouched_witness :
  ∃ p, run [Submit (Target 1) 0; Worker 0 0; Worker 0 0; Worker 0 0]
           (ThreadPool_ctor 1) = Step p ∧
       dtor p = Alive ∧ stop_source_ p = false ∧
       Forall (λ th, stop_requested th = false ∧ pc th ≠ Exited) (threads p).
Proof.
  eexists. split; [vm_compute; reflexivity|]. split; [reflexivity|].
  destruct (alive_pool_untouched
              [Submit (Target 1) 0; Worker 0 0; Worker 0 0; Worker 0 0] 1 _
              eq_refl eq_refl) as (H1 & H2 & _).
  by split.
Defined.

(** What a step of a worker moves: a target goes from a deque to the
    worker, or from the worker to the targets called; none appears and
    none is lost. *)
Lemma worker_balance idx draw p p' id :
  worker idx draw p = Step p' →
  times id (queued p') + times id (took p')
    = times id (queued p) + times id (took p) ∧
  times id (took p') + times id (held p) + times id (ran p)
    = times id (took p) + times id (held p') + times id (ran p').
Proof.
  intros Hstep. unfold worker, worker_step in Hstep.
  destruct (threads p !! idx) as [th|] eqn:Hth; [|done].
  assert (Hheld : ∀ p0 th', threads p0 = threads p →
            times id (held (set_thread idx th' p0)) + times id (pending th)
            = times id (held p0) + times id (pending th')).
  { intros p0 th' Hp0. apply held_insert. by rewrite Hp0. }
  unfold pending at 1 in Hheld. cbv zeta in Hstep.
  destruct (pc th) eqn:Hpc.
  - destruct (stop_requested th); injection Hstep as <-;
      count_thread Hheld; lia.
  - apply on_queue_Step in Hstep as (qs & q & r & q' & ns & Hqs & Hq & Hop & Hk).
    pose proof (queued_insert id p qs idx q q' Hqs Hq) as Hcount.
    pose proof (try_pop_count id q q' r ns Hop) as Hpop.
    destruct r as [f|]; injection Hk as <-; count_thread Hheld;
      simpl in Hpop; autorewrite with counts in *; lia.
  - unfold call in Hstep. destruct (task th) as [|tid] eqn:Htask; [done|].
    injection Hstep as <-. count_thread Hheld. simpl in *. lia.
  - destruct (work_queues p); [|done]. destruct (get_random draw p); [|done].
    injection Hstep as <-. count_thread Hheld. lia.
  - apply on_queue_Step in Hstep as (qs & q & r & q' & ns & Hqs & Hq & Hop & Hk).
    pose proof (queued_insert id p qs i q q' Hqs Hq) as Hcount.
    pose proof (try_steal_count id q q' r ns Hop) as Hpop.
    destruct r as [f|]; injection Hk as <-; count_thread Hheld;
      simpl in Hpop; autorewrite with counts in *; lia.
  - unfold call in Hstep. destruct (task th) as [|tid] eqn:Htask; [done|].
    injection Hstep as <-. count_thread Hheld. simpl in *. lia.
  - apply on_queue_Step in Hstep as (qs & q & r & q' & ns & Hqs & Hq & Hop & Hk).
    pose proof (queued_insert id p qs idx q q' Hqs Hq) as Hcount.
    pose proof (wait_and_pop_count id q q' r ns Hop) as Hpop.
    destruct r as [f|]; injection Hk as <-; count_thread Hheld;
      simpl in Hpop; autorewrite with counts in *; lia.
  - unfold call in Hstep. destruct (task th) as [|tid] eqn:Htask.
    + injection Hstep as <-. count_thread Hheld. simpl in *.
      autorewrite with counts in *. lia.
    + injection Hstep as <-. count_thread Hheld. simpl in *. lia.
  - done.
Qed.

(** What a submit on an untouched pool adds. *)
Lemma submit_balance func draw p p' id :
  untouched p → submit func draw p = Step p' →
  times id (queued p') = times id (queued p) + times id (target_id func) ∧
  took p' = took p ∧ held p' = held p ∧ ran p' = ran p.
Proof.
  intros (_ & _ & Hopen) Hstep.
  apply submit_inv in Hstep as (qs & q & Hqs & _ & Hlook & Hnb & ->).
  split; [|done].
  pose proof (queued_insert id p qs draw q (perform (OpPush func) q) Hqs Hlook)
    as Hcount.
  pose proof (proj1 (Forall_lookup _ _) (Hopen qs Hqs) draw q Hlook) as Hq.
  assert (Hstored : deque_ (perform (OpPush func) q) = deque_ q ++ [func]).
  { simpl. rewrite push_unfold in Hnb. rewrite push_unfold. rewrite Hq in *.
    by case_bool_decide. }
  rewrite Hstored, targets_snoc, times_app in Hcount. lia.
Qed.

Lemma run_balance acts p p' id :
  untouched p → run acts p = Step p' → dtor p' = Alive →
  times id (queued p') + times id (took p')
    = times id (submitted acts) + times id (queued p) + times id (took p) ∧
  times id (took p') + times id (held p) + times id (ran p)
    = times id (took p) + times id (held p') + times id (ran p').
Proof.
  revert p. induction acts as [|a acts IH]; intros p Hu Hrun Hd.
  - injection Hrun as <-. change (submitted []) with (@nil nat).
    rewrite times_nil. lia.
  - simpl in Hrun. destruct (step a p) as [p1| | | |] eqn:Hstep; try done.
    pose proof (run_alive_back acts p1 p' Hrun Hd) as Hd1.
    destruct (step_alive_back a p p1 Hstep Hd1) as [_ Ha].
    destruct (IH p1 (step_untouched a p p1 Hu Ha Hstep) Hrun Hd) as [IH1 IH2].
    rewrite submitted_cons, times_app.
    destruct a as [func draw|idx draw|]; simpl in Hstep; [| |done].
    + destruct (submit_balance func draw p p1 id Hu Hstep)
        as (Hq & Ht & Hh & Hr).
      rewrite Ht, Hh, Hr in *. lia.
    + destruct (worker_balance idx draw p p1 id Hstep) as [Hq Ht].
      rewrite times_nil. lia.
Qed.

Lemma times_zero_nil (l : list nat) : (∀ id, times id l = 0) → l = [].
Proof.
  destruct l as [|x l]; [done|]. intros H. specialize (H x).
  unfold times in H. rewrite filter_cons_True in H by done. done.
Qed.

(** X12. Until the destructor is entered nothing is lost and nothing is
    made up: in every state reached from a new pool in which the
    destructor has not taken a step, each target has been submitted
    exactly as many times as it is now stored in a deque, held by a worker
    about to call it, or already called, all counted together.  So once
    every submitted target has been called as often as it was submitted,
    no target is left in any deque or any worker's hands. *)
Theorem conservation_before_teardown (acts : list action) (hc : Z) (p : ThreadPool) :
  run acts (ThreadPool_ctor hc) = Step p → dtor p = Alive →
  (∀ id, times id (submitted acts)
           = times id (queued p) + times id (held p) + times id (ran p)) ∧
  ((∀ id, times id (ran p) = times id (submitted acts)) →
   queued p = [] ∧ held p = []).
Proof.
  intros Hrun Hd.
  assert (Hcons : ∀ id, times id (submitted acts)
            = times id (queued p) + times id (held p) + times id (ran p)).
  { intros id.
    destruct (run_balance acts _ p id (untouched_ctor hc) Hrun Hd) as [H1 H2].
    pose proof (accounted_ctor hc id) as [H3 H4].
    change (times id []) with 0 in H3. lia. }
  split; [exact Hcons|].
  intros Hall. split; apply times_zero_nil; intros id;
    specialize (Hcons id); specialize (Hall id); lia.
Qed.

Lemma conservation_before_teardown_witness :
  ∃ p, run [Submit (Target 1) 0; Submit (Target 2) 0; Worker 0 0; Worker 0 0]
           (ThreadPool_ctor 1) = Step p ∧
       dtor p = Alive ∧
       times 2 (submitted [Submit (Target 1) 0; Submit (Target 2) 0;
                           Worker 0 0; Worker 0 0])
         = times 2 (queued p) + times 2 (held p) + times 2 (ran p) ∧
       queued p = [1] ∧ held p = [2].
Proof.
  eexists. split; [vm_compute; reflexivity|]. split; [reflexivity|].
  split; [|split; reflexivity].
  by apply (conservation_before_teardown
              [Submit (Target 1) 0; Submit (Target 2) 0; Worker 0 0; Worker 0 0] 1).
Defined.

(* ================================================================== *)
(** * More on the pool: the teardown *)
(* ================================================================== *)

Lemma perform_keeps_closed (op : operation TaskFunc) (q : Queue) :
  done_ q = true → done_ (perform op q) = true.
Proof. intros Hq. by apply (perform_invariant op q). Qed.

Lemma closed_insert (qs : list Queue) i q op (P : nat → Prop) :
  qs !! i = Some q →
  (∀ j q, P j → qs !! j = Some q → done_ q = true) →
  ∀ j q', P j → <[i := perform op q]> qs !! j = Some q' → done_ q' = true.
Proof.
  intros Hq Hclosed j q' Hj Hlook.
  destruct (decide (i = j)) as [->|Hne].
  - rewrite list_lookup_insert_eq in Hlook by (by eapply lookup_lt_Some).
    injection Hlook as <-. apply perform_keeps_closed. by eapply Hclosed.
  - rewrite list_lookup_insert_ne in Hlook by done. by eapply Hclosed.
Qed.

Lemma step_closed_so_far n a p p' :
  shaped n p → closed_so_far p → step a p = Step p' → closed_so_far p'.
Proof.
  intros (Hn & _ & _ & Hshape) Hc Hstep.
  assert (Hqueue : ∀ qs i q op,
            work_queues p = Some qs → qs !! i = Some q →
            closed_so_far (set_queues (Some (<[i := perform op q]> qs)) p)).
  { intros qs i q op Hqs Hq qs' [= <-]. specialize (Hc qs Hqs). simpl.
    destruct (dtor p) as [|k| |k|k|]; try done.
    - intros j q' Hj. by apply (closed_insert qs i q op (λ j, j < k)).
    - apply Forall_lookup. intros j q'.
      apply (closed_insert qs i q op (λ _, True)); [done| |done].
      intros j0 q0 _. by apply (proj1 (Forall_lookup _ _) Hc). }
  destruct a as [func draw|idx draw|]; simpl in Hstep.
  - apply submit_inv in Hstep as (qs & q & Hqs & _ & Hlook & _ & ->).
    by apply Hqueue.
  - apply worker_inv in Hstep
      as (th & th' & _ & _ & Hd & _ & _ & _ & _ & _ & _ & Hqueues).
    destruct Hqueues as [Hsame | (qs & i & q & op & Hqs & Hlook & _ & Hnew)].
    + unfold closed_so_far. rewrite Hsame, Hd. apply Hc.
    + pose proof (Hqueue qs i q op Hqs Hlook) as Hc'.
      unfold closed_so_far in *. rewrite Hnew, Hd. apply Hc'.
  - apply destructor_inv in Hstep
      as [[Hd ->] | [(i & qs & q & Hd & Hi & Hqs & Hlook & ->) |
         [(i & Hd & Hi & ->) | [[Hd ->] | [(i & th & Hd & Hth & ->) |
         [(i & Hd & Hth & ->) | (i & th & Hd & Hth & Hpc & ->)]]]]]];
      intros qs' Hqs'; simpl in *; try done.
    + intros j q' Hj. lia.
    + injection Hqs' as <-. specialize (Hc qs Hqs). rewrite Hd in Hc.
      intros j q' Hj Hlook'. destruct (decide (i = j)) as [->|Hne].
      * rewrite list_lookup_insert_eq in Hlook' by (by eapply lookup_lt_Some).
        by injection Hlook' as <-.
      * rewrite list_lookup_insert_ne in Hlook' by done.
        apply (Hc j q'); [lia|done].
    + specialize (Hc qs' Hqs'). rewrite Hd in Hc, Hshape. simpl in Hshape.
      destruct Hshape as (qs & Hqs & Hlen & _). simplify_eq.
      apply Forall_lookup. intros j q Hlook. apply (Hc j q); [|done].
      apply lookup_lt_Some in Hlook. lia.
Qed.

Lemma run_closed_so_far n acts p p' :
  shaped n p → closed_so_far p → run acts p = Step p' → closed_so_far p'.
Proof.
  revert p. induction acts as [|a acts IH]; intros p Hs Hc Hrun.
  - by injection Hrun as <-.
  - simpl in Hrun. destruct (step a p) as [p1| | | |] eqn:Hstep; try done.
    eauto using step_shaped, step_closed_so_far.
Qed.

Lemma set_queues_same p qs : work_queues p = Some qs → set_queues (Some qs) p = p.
Proof. destruct p. simpl. by intros ->. Qed.

(** X13. When [stop_workers()] has returned and [work_queues] is not yet
    destroyed, every deque of the pool is closed, whatever the workers and
    submitters did in between; a submit in that state returns at once and
    changes nothing: its task is dropped. *)
Theorem stop_workers_closes_all (acts : list action) (hc : Z) (p : ThreadPool) :
  run acts (ThreadPool_ctor hc) = Step p → dtor p = DestroyQueues →
  (∃ qs, work_queues p = Some qs ∧ Forall (λ q, done_ q = true) qs) ∧
  (∀ func draw, draw < thread_count p → submit func draw p = Step p).
Proof.
  intros Hrun Hd.
  pose proof (run_shaped _ acts _ p (shaped_ctor hc) Hrun) as Hs.
  assert (Hc0 : closed_so_far (ThreadPool_ctor hc)) by (by intros qs _).
  pose proof (run_closed_so_far _ acts _ p (shaped_ctor hc) Hc0 Hrun) as Hc.
  destruct Hs as (Hn & _ & _ & Hq). rewrite Hd in Hq. cbn [queues_destroyed] in Hq.
  destruct Hq as (qs & Hqs & Hlen & _).
  specialize (Hc qs Hqs). rewrite Hd in Hc.
  split; [by exists qs|].
  intros func draw Hdraw. unfold submit. rewrite Hqs.
  rewrite get_random_in_range by done.
  destruct (lookup_lt_is_Some_2 qs draw ltac:(lia)) as [q Hlook].
  pose proof (proj1 (Forall_lookup _ _) Hc draw q Hlook) as Hq.
  assert (Hpush : push func q = Done tt q []) by (by rewrite push_unfold, Hq).
  rewrite (on_queue_Done _ _ _ _ _ _ _ _ _ Hqs Hlook Hpush).
  by rewrite (list_insert_id _ _ _ Hlook), (set_queues_same p qs Hqs).
Qed.

Lemma stop_workers_closes_all_witness :
  ∃ p, run [Submit (Target 1) 0; Destructor; Worker 1 0; Destructor; Destructor;
            Destructor] (ThreadPool_ctor 2) = Step p ∧
       dtor p = DestroyQueues ∧ 1 < thread_count p ∧
       submit (Target 9) 1 p = Step p.
Proof.
  eexists. split; [vm_compute; reflexivity|]. split; [reflexivity|].
  assert (H : 1 < 2) by lia. split; [exact H|].
  by apply (stop_workers_closes_all
              [Submit (Target 1) 0; Destructor; Worker 1 0; Destructor; Destructor;
               Destructor] 2 _ eq_refl eq_refl).
Defined.

Lemma run_app acts1 acts2 p :
  run (acts1 ++ acts2) p =
    match run acts1 p with
    | Step p' => run acts2 p'
    | r => r
    end.
Proof.
  revert p. induction acts1 as [|a acts1 IH]; intros p; [done|].
  simpl. destruct (step a p); auto.
Qed.

(** The loop of [stop_workers()], run without interruption. *)
Lemma stop_workers_loop k p i qs :
  dtor p = StopWorkers i → work_queues p = Some qs →
  thread_count p = length qs → i + k ≤ length qs →
  ∃ p' qs', run (replicate k Destructor) p = Step p' ∧
            dtor p' = StopWorkers (i + k) ∧ threads p' = threads p ∧
            thread_count p' = thread_count p ∧
            work_queues p' = Some qs' ∧ length qs' = length qs.
Proof.
  revert p i qs. induction k as [|k IH]; intros p i qs Hd Hqs Htc Hik.
  - exists p, qs. rewrite Nat.add_0_r. done.
  - destruct (lookup_lt_is_Some_2 qs i ltac:(lia)) as [q Hq].
    assert (Hstep : destructor p =
              Step (set_dtor (StopWorkers (S i))
                      (set_queues (Some (<[i := perform OpClose q]> qs)) p))).
    { unfold destructor. rewrite Hd. rewrite bool_decide_true by lia.
      by rewrite (on_queue_Done _ _ _ _ _ _ _ _ _ Hqs Hq (close_unfold q)). }
    assert (Htc1 : thread_count
              (set_dtor (StopWorkers (S i))
                 (set_queues (Some (<[i := perform OpClose q]> qs)) p))
              = length (<[i := perform OpClose q]> qs))
      by (simpl; by rewrite length_insert).
    assert (Hik1 : S i + k ≤ length (<[i := perform OpClose q]> qs))
      by (rewrite length_insert; lia).
    destruct (IH (set_dtor (StopWorkers (S i))
                    (set_queues (Some (<[i := perform OpClose q]> qs)) p))
                 (S i) (<[i := perform OpClose q]> qs) eq_refl eq_refl Htc1 Hik1)
      as (p' & qs' & Hrun & Hd' & Hth' & Htc' & Hqs' & Hlen').
    exists p', qs'. simpl. rewrite Hstep, Hrun.
    rewrite length_insert in Hlen'. replace (i + S k) with (S i + k) by lia.
    done.
Qed.

(** X14. Whatever the number of workers, a worker that has passed the
    test at the top of its loop when the pool is destroyed goes on to call
    try_pop on a queue that no longer exists: the destructor's body does
    not wait for the workers, and [work_queues], declared after [threads],
    is destroyed before the threads are joined. *)
Theorem worker_outlives_queues (hc : Z) :
  run (Worker 0 0 ::
       replicate (thread_count (ThreadPool_ctor hc) + 3) Destructor ++
       [Worker 0 0]) (ThreadPool_ctor hc) = UB.
Proof.
  pose (p0 := ThreadPool_ctor hc).
  assert (Hn : 1 ≤ thread_count p0) by (simpl; lia).
  assert (Hd0 : dtor p0 = Alive) by reflexivity.
  assert (Hth0 : threads p0 !! 0 = Some (mkThread false LoopTop EmptyFunction))
    by (simpl; apply lookup_replicate_2; lia).
  assert (Hq : ∃ qs, work_queues p0 = Some qs ∧ length qs = thread_count p0).
  { eexists. split; [reflexivity|]. simpl. by rewrite length_replicate. }
  destruct Hq as (qs & Hqs & Hlen).
  change (ThreadPool_ctor hc) with p0. clearbody p0.
  set (n := thread_count p0) in *.
  set (th1 := mkThread false TryPop EmptyFunction).
  set (p1 := set_thread 0 th1 p0).
  set (p2 := set_dtor (StopWorkers 0) (set_stop_source true p1)).
  assert (Hw : worker 0 0 p0 = Step p1) by (by rewrite (worker_at _ _ _ _ Hth0)).
  assert (Hs0 : destructor p1 = Step p2).
  { unfold destructor. subst p1. simpl. by rewrite Hd0. }
  destruct (stop_workers_loop n p2 0 qs)
    as (p3 & qs3 & Hrun & Hd3 & Hth3 & Htc3 & Hqs3 & Hlen3);
    [done|done|by rewrite Hlen|lia|].
  simpl in Hd3, Hth3, Htc3. fold n in Htc3.
  assert (Hs1 : destructor p3 = Step (set_dtor DestroyQueues p3)).
  { unfold destructor. rewrite Hd3, Htc3. by rewrite bool_decide_false by lia. }
  replace (n + 3) with (1 + (n + 2)) by lia.
  rewrite replicate_add, <- app_assoc. cbn [run step replicate app]. 
  rewrite Hw. cbn [run step]. rewrite Hs0.
  rewrite replicate_add, <- app_assoc, run_app, Hrun.
  cbn [run step replicate app]. rewrite Hs1.
  unfold destructor at 1. cbn [dtor set_dtor].
  unfold worker. cbn [threads set_dtor set_queues].
  rewrite Hth3, list_lookup_insert_eq by (by eapply lookup_lt_Some).
  reflexivity.
Qed.

(* ================================================================== *)
(** * More on the pool: an empty std::function as a task *)
(* ================================================================== *)




(** X16. A submitter waits exactly when the deque it has drawn is open
    and holds 50 tasks, however much room the other deques have: the index
    is drawn once and the push is made on that deque. *)
Theorem submit_blocks_on_drawn_queue (acts : list action) (hc : Z) (p : ThreadPool)
    (func : TaskFunc) (draw : nat) (qs : list Queue) (q : Queue) :
  run acts (ThreadPool_ctor hc) = Step p →
  work_queues p = Some qs → qs !! draw = Some q →
  (submit func draw p = Blocked ↔ done_ q = false ∧ size q = 50).
Proof.
  intros Hrun Hqs Hlook.
  destruct (run_shaped _ acts _ p (shaped_ctor hc) Hrun) as (Hn & _ & _ & Hq).
  destruct (queues_destroyed (dtor p)); [congruence|].
  destruct Hq as (qs' & Hqs' & Hlen & Hall). simplify_eq.
  pose proof (proj1 (Forall_lookup _ _) Hall draw q Hlook) as [Hmax Hsize].
  assert (Hdraw : draw < thread_count p).
  { apply lookup_lt_Some in Hlook. lia. }
  unfold submit, on_queue. rewrite Hqs.
  rewrite get_random_in_range by done. rewrite Hlook.
  pose proof (push_blocked_iff q func) as Hb.
  destruct (push func q) as [| |r q' ns] eqn:Hpush.
  - split; [intros _|done]. destruct (proj1 Hb eq_refl). split; [done|lia].
  - by destruct (push_defined q func).
  - split; [done|]. intros [Hopen Hfull].
    assert (Hcontra : @Done TaskFunc () r q' ns = Deque.Blocked); [|done].
    apply Hb. split; [lia|done].
Qed.

Lemma submit_blocks_on_drawn_queue_witness :
  ∃ p qs q,
    run [Submit (Target 1) 0] (ThreadPool_ctor 2) = Step p ∧
    work_queues p = Some qs ∧ qs !! 0 = Some q ∧
    (submit (Target 2) 0 p = Blocked ↔ done_ q = false ∧ size q = 50).
Proof.
  do 3 eexists. split; [vm_compute; reflexivity|].
  split; [reflexivity|]. split; [reflexivity|].
  by apply (submit_blocks_on_drawn_queue [Submit (Target 1) 0] 2 _ (Target 2) 0 _ _
              eq_refl eq_refl eq_refl).
Defined.

(* ================================================================== *)
(** * The convolution tasks *)
(* ================================================================== *)

Import Convolution.

Local Open Scope Z_scope.

Lemma int_Some (v : Z) : - 2 ^ 31 ≤ v ≤ 2 ^ 31 - 1 → int v = Some v.
Proof. intros H. unfold int. by rewrite bool_decide_eq_true_2. Qed.

Lemma int_None (v : Z) : ¬ (- 2 ^ 31 ≤ v ≤ 2 ^ 31 - 1) → int v = None.
Proof. intros H. unfold int. by rewrite bool_decide_eq_false_2. Qed.

Lemma int_cases (v : Z) : int v = None ∨ int v = Some v.
Proof. unfold int. case_bool_decide; auto. Qed.

Lemma get_index_cases (z y x : Z) :
  get_index z y x = None ∨
  get_index z y x = Some (z * IMG_WIDTH * IMG_HEIGHT + y * IMG_WIDTH + x).
Proof.
  unfold get_index, int_mul, int_add.
  destruct (int_cases (z * IMG_WIDTH)) as [->| ->]; [by left|]. cbn [mbind option_bind].
  destruct (int_cases (z * IMG_WIDTH * IMG_HEIGHT)) as [->| ->]; [by left|].
  cbn [mbind option_bind].
  destruct (int_cases (y * IMG_WIDTH)) as [->| ->]; [by left|]. cbn [mbind option_bind].
  destruct (int_cases (z * IMG_WIDTH * IMG_HEIGHT + y * IMG_WIDTH)) as [->| ->];
    [by left|].
  cbn [mbind option_bind]. apply int_cases.
Qed.

Lemma get_index_Some (z y x : Z) :
  - 2 ^ 20 ≤ z ≤ 2 ^ 20 → - 2 ^ 20 ≤ y ≤ 2 ^ 20 → - 2 ^ 20 ≤ x ≤ 2 ^ 20 →
  get_index z y x = Some (z * IMG_WIDTH * IMG_HEIGHT + y * IMG_WIDTH + x).
Proof.
  intros Hz Hy Hx. unfold get_index, int_mul, int_add, IMG_WIDTH, IMG_HEIGHT.
  rewrite (int_Some (z * 24)) by lia. cbn [mbind option_bind].
  rewrite (int_Some (z * 24 * 24)) by lia. cbn [mbind option_bind].
  rewrite (int_Some (y * 24)) by lia. cbn [mbind option_bind].
  rewrite (int_Some (z * 24 * 24 + y * 24)) by lia. cbn [mbind option_bind].
  rewrite int_Some by lia. done.
Qed.

Lemma decode_index (z y x : Z) :
  0 ≤ y < IMG_HEIGHT → 0 ≤ x < IMG_WIDTH → 0 ≤ z →
  let i := Z.to_nat (z * IMG_WIDTH * IMG_HEIGHT + y * IMG_WIDTH + x) in
  depth_of i = z ∧ row_of i = y ∧ column_of i = x.
Proof.
  intros Hy Hx Hz i. subst i.
  unfold depth_of, row_of, column_of, IMG_WIDTH, IMG_HEIGHT in *.
  rewrite Z2Nat.id by lia.
  assert ((z * 24 * 24 + y * 24 + x) `div` 24 = z * 24 + y) as E1.
  { symmetry. apply (Z.div_unique _ 24 _ x); lia. }
  repeat split.
  - symmetry. apply (Z.div_unique _ (24 * 24) _ (y * 24 + x)); lia.
  - rewrite E1. symmetry. apply (Z.mod_unique _ 24 z y); lia.
  - symmetry. apply (Z.mod_unique _ 24 (z * 24 + y) x); lia.
Qed.

Lemma encode_index (i : nat) :
  Z.of_nat i
  = depth_of i * IMG_WIDTH * IMG_HEIGHT + row_of i * IMG_WIDTH + column_of i.
Proof.
  unfold depth_of, row_of, column_of, IMG_WIDTH, IMG_HEIGHT.
  pose proof (Z.div_mod (Z.of_nat i) 24).
  pose proof (Z.div_mod (Z.of_nat i `div` 24) 24).
  rewrite <- Z.div_div by lia. lia.
Qed.

Lemma coordinates_bounds (i : nat) :
  0 ≤ depth_of i ∧ 0 ≤ row_of i < IMG_HEIGHT ∧ 0 ≤ column_of i < IMG_WIDTH.
Proof.
  unfold depth_of, row_of, column_of, IMG_WIDTH, IMG_HEIGHT.
  pose proof (Z.mod_pos_bound (Z.of_nat i) 24).
  pose proof (Z.mod_pos_bound (Z.of_nat i `div` 24) 24).
  pose proof (Z.div_pos (Z.of_nat i) (24 * 24)). lia.
Qed.

(** X17.  [get_index]: on the coordinates of the volume it returns an
    index below [VOLUME_SIZE] from which the three coordinates are read
    back by division, so different voxels have different indices; and
    every index below [VOLUME_SIZE] is the index of its coordinates,
    which lie in the volume. *)
Theorem get_index_bijection :
  (∀ z y x : Z,
     0 ≤ z < IMG_DEPTH → 0 ≤ y < IMG_HEIGHT → 0 ≤ x < IMG_WIDTH →
     ∃ i : nat,
       get_index z y x = Some (Z.of_nat i) ∧ Z.of_nat i < VOLUME_SIZE ∧
       depth_of i = z ∧ row_of i = y ∧ column_of i = x) ∧
  (∀ i : nat,
     Z.of_nat i < VOLUME_SIZE →
     0 ≤ depth_of i < IMG_DEPTH ∧ 0 ≤ row_of i < IMG_HEIGHT ∧
     0 ≤ column_of i < IMG_WIDTH ∧
     get_index (depth_of i) (row_of i) (column_of i) = Some (Z.of_nat i)).
Proof.
  split.
  - intros z y x Hz Hy Hx.
    exists (Z.to_nat (z * IMG_WIDTH * IMG_HEIGHT + y * IMG_WIDTH + x)).
    unfold IMG_DEPTH in Hz. pose proof Hy as Hy'. pose proof Hx as Hx'.
    unfold IMG_HEIGHT in Hy'. unfold IMG_WIDTH in Hx'.
    rewrite get_index_Some by lia.
    split; [|split; [|apply decode_index; lia]].
    + f_equal. unfold IMG_WIDTH, IMG_HEIGHT. lia.
    + unfold VOLUME_SIZE, IMG_WIDTH, IMG_HEIGHT, IMG_DEPTH. lia.
  - intros i Hi. pose proof (coordinates_bounds i) as (Hd & Hr & Hc).
    pose proof (encode_index i) as E.
    assert (depth_of i < IMG_DEPTH) as Hd'.
    { unfold VOLUME_SIZE, IMG_WIDTH, IMG_HEIGHT, IMG_DEPTH in *. lia. }
    repeat split; try lia.
    unfold IMG_WIDTH, IMG_HEIGHT, IMG_DEPTH in Hd', Hr, Hc.
    rewrite get_index_Some by lia. by rewrite <- E.
Qed.

Lemma get_index_bijection_witness :
  ∃ i : nat, get_index 12 12 12 = Some (Z.of_nat i) ∧ Z.of_nat i < VOLUME_SIZE ∧
             depth_of i = 12 ∧ row_of i = 12 ∧ column_of i = 12.
Proof. apply (proj1 get_index_bijection 12 12 12); by vm_compute. Defined.

(** ** Loops *)

Lemma for_each_app {S} (l1 l2 : list Z) (body : Z → S → option S) (s : S) :
  for_each (l1 ++ l2) body s = s' ← for_each l1 body s; for_each l2 body s'.
Proof.
  revert s. induction l1 as [|i l1 IH]; intros s; [done|].
  cbn [app for_each]. destruct (body i s); [apply IH|done].
Qed.

(** A loop whose rounds all succeed is a fold. *)
Lemma for_each_foldl {S} (I : S → Prop) (l : list Z)
    (body : Z → S → option S) (g : Z → S → S) (s : S) :
  (∀ i s, i ∈ l → I s → body i s = Some (g i s) ∧ I (g i s)) →
  I s →
  for_each l body s = Some (foldl (λ s i, g i s) s l) ∧
  I (foldl (λ s i, g i s) s l).
Proof.
  revert s. induction l as [|i l IH]; intros s Hbody Hs; [done|].
  cbn [for_each foldl].
  destruct (Hbody i s) as [-> Hs']; [left|done|]. cbn [mbind option_bind].
  apply IH; [|done]. intros j s' Hj. apply Hbody. by right.
Qed.

(** A loop with a round that fails whatever the state fails. *)
Lemma for_each_fails {S} (l : list Z) (body : Z → S → option S) (s : S) (i : Z) :
  i ∈ l → (∀ s, body i s = None) → for_each l body s = None.
Proof.
  intros Hi Hfail. revert s. induction l as [|j l IH]; intros s.
  - by apply elem_of_nil in Hi.
  - cbn [for_each]. apply elem_of_cons in Hi as [->|Hi].
    + by rewrite Hfail.
    + destruct (body j s); [by apply IH|done].
Qed.

Lemma for_loop_fails {S} (first last : Z) (body : Z → S → option S) (s : S) (i : Z) :
  first ≤ i < last → (∀ s, body i s = None) → for_loop first last body s = None.
Proof.
  intros Hi. apply for_each_fails. apply elem_of_seqZ. lia.
Qed.

Lemma for_loop_foldl {S} (I : S → Prop) (first last : Z)
    (body : Z → S → option S) (g : Z → S → S) (s : S) :
  (∀ i s, first ≤ i < last → I s → body i s = Some (g i s) ∧ I (g i s)) →
  I s →
  for_loop first last body s
  = Some (foldl (λ s i, g i s) s (seqZ first (last - first))) ∧
  I (foldl (λ s i, g i s) s (seqZ first (last - first))).
Proof.
  intros Hbody. apply for_each_foldl. intros i s' Hi.
  apply Hbody. apply elem_of_seqZ in Hi. lia.
Qed.

(** ** Loops that store into a vector *)

Section Stores.
Context {F : Type}.
Variables (fzero : F) (fadd fmul : F → F → F).
Variables (h : nat → F) (out0 : list F).

Lemma overwritten_refl : overwritten (λ _, False) h out0 out0.
Proof. split; [done|]. intros i x Hi. by split. Qed.

Lemma overwritten_iff (W W' : nat → Prop) (out : list F) :
  (∀ i, (i < length out0)%nat → W i ↔ W' i) →
  overwritten W h out0 out → overwritten W' h out0 out.
Proof.
  intros HW [Hlen Hout]. split; [done|]. intros i x Hi.
  assert (i < length out0)%nat as Hlt by (by eapply lookup_lt_Some).
  destruct (Hout i x Hi) as [H1 H2]. split; intros Hw.
  - apply H1. by apply HW.
  - apply H2. intros Hw'. apply Hw. by apply HW.
Qed.

Lemma overwritten_store (W : nat → Prop) (out : list F) (i : Z) :
  0 ≤ i < Z.of_nat (length out0) →
  overwritten W h out0 out →
  ∃ out', store out i (h (Z.to_nat i)) = Some out' ∧
          overwritten (λ k, W k ∨ k = Z.to_nat i) h out0 out'.
Proof.
  intros Hi [Hlen Hout]. unfold store. rewrite Hlen.
  rewrite bool_decide_eq_true_2 by done. eexists. split; [done|].
  split; [by rewrite length_insert|]. intros k x Hk.
  destruct (Hout k x Hk) as [H1 H2].
  destruct (decide (k = Z.to_nat i)) as [->|Hne].
  - split; [|intros Hw; exfalso; apply Hw; by right].
    intros _. apply list_lookup_insert_eq. rewrite Hlen. lia.
  - rewrite list_lookup_insert_ne by done. split.
    + intros [Hw|?]; [by apply H1|done].
    + intros Hw. apply H2. intros Hw'. apply Hw. by left.
Qed.

Lemma overwritten_imap (W : nat → Prop) (b : nat → bool) (out : list F) :
  (∀ i, (i < length out0)%nat → W i ↔ b i = true) →
  overwritten W h out0 out →
  out = imap (λ i old, if b i then h i else old) out0.
Proof.
  intros HW [Hlen Hout]. apply list_eq. intros i.
  rewrite list_lookup_imap. destruct (out0 !! i) as [x|] eqn:Hi; cbn.
  - assert (i < length out0)%nat as Hlt by (by eapply lookup_lt_Some).
    destruct (Hout i x Hi) as [H1 H2]. destruct (b i) eqn:Hb.
    + apply H1. by apply HW.
    + apply H2. intros Hw. apply HW in Hw; [congruence|done].
  - apply lookup_ge_None. rewrite Hlen. by apply lookup_ge_None.
Qed.

(** A counted loop keeps an invariant that depends on the counter. *)
Lemma for_loop_inv {S} (P : Z → S → Prop) (first last : Z)
    (body : Z → S → option S) (s : S) :
  first ≤ last →
  P first s →
  (∀ i s, first ≤ i < last → P i s → ∃ s', body i s = Some s' ∧ P (i + 1) s') →
  ∃ s', for_loop first last body s = Some s' ∧ P last s'.
Proof.
  intros Hle Hs Hbody. unfold for_loop.
  assert (∀ n i s, first ≤ i → i + Z.of_nat n = last → P i s →
            ∃ s', for_each (seqZ i (Z.of_nat n)) body s = Some s' ∧ P last s') as Hgen.
  { clear s Hs. induction n as [|n IH]; intros i s Hi Hn Hs.
    - exists s. split; [done|]. by replace last with i by lia.
    - rewrite Nat2Z.inj_succ, seqZ_cons by lia. cbn [for_each].
      destruct (Hbody i s) as (s' & -> & Hs'); [lia|done|].
      cbn [mbind option_bind].
      replace (Z.pred (Z.succ (Z.of_nat n))) with (Z.of_nat n) by lia.
      replace (Z.succ i) with (i + 1) by lia. apply IH; [lia|lia|done]. }
  replace (last - first) with (Z.of_nat (Z.to_nat (last - first))) by lia.
  apply Hgen; [lia|lia|done].
Qed.

(** The three nested loops over a box of voxels, storing at each voxel a
    value that is a function of its index. *)
Lemma box_loop (val : Z → Z → Z → option F) (z0 z1 lo hi : Z) :
  0 ≤ z0 ≤ z1 → z1 ≤ IMG_DEPTH → 0 ≤ lo ≤ hi → hi ≤ IMG_WIDTH →
  VOLUME_SIZE ≤ Z.of_nat (length out0) →
  (∀ z r c, z0 ≤ z < z1 → lo ≤ r < hi → lo ≤ c < hi →
     val z r c
     = Some (h (Z.to_nat (z * IMG_WIDTH * IMG_HEIGHT + r * IMG_WIDTH + c)))) →
  for_loop z0 z1 (λ z,
    for_loop lo hi (λ r,
      for_loop lo hi (λ c out,
        v ← val z r c; i ← get_index z r c; store out i v))) out0
  = Some (imap (λ i old,
            if bool_decide (z0 ≤ depth_of i < z1 ∧ lo ≤ row_of i < hi ∧
                            lo ≤ column_of i < hi)
            then h i else old) out0).
Proof.
  intros Hz Hz1 Hlo Hhi Hlen Hval.
  unfold IMG_DEPTH in Hz1. unfold IMG_WIDTH in Hhi.
  pose (box := λ i : nat, lo ≤ row_of i < hi ∧ lo ≤ column_of i < hi).
  destruct (for_loop_inv
    (λ z out, overwritten (λ i, box i ∧ z0 ≤ depth_of i < z) h out0 out)
    z0 z1
    (λ z, for_loop lo hi (λ r, for_loop lo hi (λ c out,
        v ← val z r c; i ← get_index z r c; store out i v))) out0)
    as (out & -> & Hout); [lia| | |].
  - eapply overwritten_iff; [|apply overwritten_refl]. intros i _. cbv beta. lia.
  - intros z out Hzr Hout.
    destruct (for_loop_inv
      (λ r out, overwritten
         (λ i, box i ∧ (z0 ≤ depth_of i < z ∨ depth_of i = z ∧ row_of i < r))
         h out0 out)
      lo hi
      (λ r, for_loop lo hi (λ c out,
          v ← val z r c; i ← get_index z r c; store out i v)) out)
      as (out' & -> & Hout'); [lia| | |].
    + eapply overwritten_iff; [|apply Hout]. intros i _. unfold box. cbv beta. lia.
    + intros r out' Hr Hout'.
      destruct (for_loop_inv
        (λ c out, overwritten
           (λ i, box i ∧ (z0 ≤ depth_of i < z ∨ depth_of i = z ∧
                  (row_of i < r ∨ row_of i = r ∧ column_of i < c)))
           h out0 out)
        lo hi
        (λ c out, v ← val z r c; i ← get_index z r c; store out i v) out')
        as (out'' & -> & Hout''); [lia| | |].
      * eapply overwritten_iff; [|apply Hout']. intros i _. unfold box. cbv beta. lia.
      * intros c out'' Hc Hout''. rewrite Hval by lia. cbn [mbind option_bind].
        rewrite get_index_Some by lia. cbn [mbind option_bind].
        assert (0 ≤ z * IMG_WIDTH * IMG_HEIGHT + r * IMG_WIDTH + c
                < Z.of_nat (length out0)) as Hin.
        { unfold VOLUME_SIZE, IMG_WIDTH, IMG_HEIGHT, IMG_DEPTH in *. lia. }
        destruct (overwritten_store _ out'' _ Hin Hout'') as (o & -> & Ho).
        eexists. split; [done|].
        eapply overwritten_iff; [|apply Ho]. intros i _. cbv beta.
        pose proof (decode_index z r c) as Hdec. cbv zeta in Hdec.
        unfold IMG_WIDTH, IMG_HEIGHT in Hdec.
        destruct Hdec as (Hd1 & Hd2 & Hd3); [lia|lia|lia|].
        pose proof (encode_index i) as Henc. unfold IMG_WIDTH, IMG_HEIGHT in *.
        unfold box. split.
        -- intros [Hw| ->]; [lia|]. rewrite Hd1, Hd2, Hd3. lia.
        -- intros [Hb Hw].
           destruct (decide (depth_of i = z ∧ row_of i = r ∧ column_of i = c))
             as [(E1 & E2 & E3)|Hne].
           ++ right. apply Nat2Z.inj. rewrite Henc, E1, E2, E3. lia.
           ++ left. lia.
      * eexists. split; [done|].
        eapply overwritten_iff; [|apply Hout'']. intros i _. unfold box. cbv beta. lia.
    + eexists. split; [done|].
      eapply overwritten_iff; [|apply Hout']. intros i _. unfold box. cbv beta. lia.
  - f_equal. eapply overwritten_imap; [|apply Hout]. intros i _. cbv beta.
    unfold box. rewrite bool_decide_eq_true. lia.
Qed.

End Stores.

(** ** One task *)

Section Tasks.
Context {F : Type}.
Variables (fzero : F) (fadd fmul : F → F → F).


Lemma option_bind_Some {A B} (x : A) (f : A → option B) : Some x ≫= f = f x.
Proof. done. Qed.

Lemma at_negative (v : list F) (i : Z) : i < 0 → at_ v i = None.
Proof. intros Hi. unfold at_. by rewrite bool_decide_eq_false_2 by lia. Qed.








(** The first round of the kernel loops at a slice below [BORDER], and
    the last but eight at a slice from [IMG_DEPTH - BORDER] on, read
    outside the input. *)
Lemma window_round_outside (t : ConvolutionTask F) (z kz : Z) (acc : F * Z) :
  Z.of_nat (length (input_ t)) = VOLUME_SIZE →
  z + kz < 0 ∨ IMG_DEPTH ≤ z + kz →
  (let '(sum, kernel_idx) := acc in
   iz ← int_add z kz;
   ir ← int_add 1 (-1);
   ic ← int_add 1 (-1);
   input_idx ← get_index iz ir ic;
   k_val ← at_ (kernel_ t) kernel_idx;
   kernel_idx' ← int_add kernel_idx 1;
   in_val ← at_ (input_ t) input_idx;
   Some (fadd sum (fmul in_val k_val), kernel_idx')) = None.
Proof.
  intros Hin Hz. destruct acc as [sum kernel_idx].
  unfold VOLUME_SIZE, IMG_WIDTH, IMG_HEIGHT, IMG_DEPTH in *.
  change (int_add 1 (-1)) with (Some 0). unfold int_add.
  destruct (int_cases (z + kz)) as [->| ->]; [done|].
  rewrite !option_bind_Some.
  destruct (get_index_cases (z + kz) 0 0) as [->| ->]; [done|].
  rewrite option_bind_Some.
  destruct (at_ (kernel_ t) kernel_idx); [|done]. rewrite option_bind_Some.
  destruct (int (kernel_idx + 1)); [|done]. rewrite option_bind_Some.
  unfold at_, IMG_WIDTH, IMG_HEIGHT. case_bool_decide; [|done].
  rewrite (proj2 (lookup_ge_None _ _)); [done|]. lia.
Qed.

Lemma window_outside (t : ConvolutionTask F) (z : Z) :
  Z.of_nat (length (input_ t)) = VOLUME_SIZE →
  z < BORDER ∨ IMG_DEPTH - BORDER ≤ z →
  window fzero fadd fmul t z 1 1 = None.
Proof.
  intros Hin Hz. change BORDER with 1 in *. change IMG_DEPTH with 24 in *.
  unfold window. change BORDER with 1. change (- (1)) with (-1).
  change (1 + 1) with 2.
  assert (∀ kz : Z, -1 ≤ kz < 2 → z + kz < 0 ∨ IMG_DEPTH ≤ z + kz →
            for_loop (-1) 2 (λ kz,
              for_loop (-1) 2 (λ kr,
                for_loop (-1) 2 (λ kc (acc : F * Z),
                  let '(sum, kernel_idx) := acc in
                  iz ← int_add z kz;
                  ir ← int_add 1 kr;
                  ic ← int_add 1 kc;
                  input_idx ← get_index iz ir ic;
                  k_val ← at_ (kernel_ t) kernel_idx;
                  kernel_idx' ← int_add kernel_idx 1;
                  in_val ← at_ (input_ t) input_idx;
                  Some (fadd sum (fmul in_val k_val), kernel_idx'))))
              (fzero, 0) = None) as Hloop.
  { intros kz Hkz Hout. apply (for_loop_fails _ _ _ _ kz); [lia|].
    intros s. apply (for_loop_fails _ _ _ _ (-1)); [lia|].
    intros s'. apply (for_loop_fails _ _ _ _ (-1)); [lia|].
    intros s''. by apply window_round_outside. }
  destruct Hz as [Hz|Hz].
  - rewrite (Hloop (-1)); [done|lia|lia].
  - rewrite (Hloop 1); [done|lia|unfold IMG_DEPTH; lia].
Qed.

(** X19.  [ConvolutionTask::operator()] does not check its slices: with
    an input of [VOLUME_SIZE] voxels, a task with a slice below [BORDER]
    or a slice from [IMG_DEPTH - BORDER] on reads outside the input,
    which is undefined behaviour. *)
Theorem task_outside_volume_undefined (t : ConvolutionTask F) (sh : shared F) :
  Z.of_nat (length (input_ t)) = VOLUME_SIZE →
  start_slice_ t < end_slice_ t →
  start_slice_ t < BORDER ∨ IMG_DEPTH - BORDER < end_slice_ t →
  call fzero fadd fmul t sh = None.
Proof.
  intros Hin Hne Hrange. unfold call.
  assert (∀ z, start_slice_ t ≤ z < end_slice_ t →
            z < BORDER ∨ IMG_DEPTH - BORDER ≤ z →
            for_loop (start_slice_ t) (end_slice_ t) (λ z,
              for_loop BORDER (IMG_HEIGHT - BORDER) (λ r,
                for_loop BORDER (IMG_WIDTH - BORDER) (λ c out,
                  sum ← window fzero fadd fmul t z r c;
                  i ← get_index z r c;
                  store out i sum))) (output sh) = None) as Hloop.
  { intros z Hz Hout. apply (for_loop_fails _ _ _ _ z); [done|].
    intros s. apply (for_loop_fails _ _ _ _ 1); [done|].
    intros s'. apply (for_loop_fails _ _ _ _ 1); [done|].
    intros s''. by rewrite window_outside. }
  destruct Hrange as [Hlow|Hhigh].
  - rewrite (Hloop (start_slice_ t)); [done|lia|by left].
  - rewrite (Hloop (end_slice_ t - 1)); [done|lia|right; lia].
Qed.

End Tasks.


Lemma task_outside_volume_undefined_witness :
  call 0 Z.add Z.mul
    (mkTask (replicate (Z.to_nat VOLUME_SIZE) 1) (replicate 27 1) 0 1)
    (mkShared (replicate (Z.to_nat VOLUME_SIZE) 0) 0) = None.
Proof.
  apply (task_outside_volume_undefined 0 Z.add Z.mul
           (mkTask (replicate (Z.to_nat VOLUME_SIZE) 1) (replicate 27 1) 0 1));
    cbn [input_ start_slice_ end_slice_].
  - rewrite length_replicate. by vm_compute.
  - lia.
  - left. by vm_compute.
Defined.

(** ** A filter run *)

Section FilterRun.
Context {F : Type}.
Variables (fzero : F) (fadd fmul : F → F → F).
Variables (input kernel : list F).







End FilterRun.


(** ** The input volume *)

Section Input.
Context {F : Type}.
Variables (fadd : F → F → F) (f10 f100 : F) (noise : Z → F).

Lemma store_length (v v' : list F) (i : Z) (x : F) :
  store v i x = Some v' → length v' = length v.
Proof.
  unfold store. case_bool_decide; [|done]. intros [= <-]. by rewrite length_insert.
Qed.

(** A loop keeps what each of its rounds keeps. *)
Lemma for_each_keeps {S} (I : S → Prop) (l : list Z)
    (body : Z → S → option S) (s s' : S) :
  (∀ i s s', I s → body i s = Some s' → I s') →
  I s → for_each l body s = Some s' → I s'.
Proof.
  intros Hbody. revert s. induction l as [|i l IH]; intros s Hs.
  - by intros [= <-].
  - cbn [for_each]. destruct (body i s) as [s1|] eqn:Hb; [|done].
    rewrite option_bind_Some. apply IH. by eapply Hbody.
Qed.

(** A loop with a round that fails in every state the rounds keep
    fails. *)
Lemma for_each_fails_in {S} (I : S → Prop) (l : list Z)
    (body : Z → S → option S) (s : S) (i : Z) :
  (∀ i s s', I s → body i s = Some s' → I s') →
  i ∈ l → (∀ s, I s → body i s = None) → I s → for_each l body s = None.
Proof.
  intros Hbody Hi Hfail. revert s. induction l as [|j l IH]; intros s Hs.
  - by apply elem_of_nil in Hi.
  - cbn [for_each]. apply elem_of_cons in Hi as [->|Hi].
    + by rewrite Hfail.
    + destruct (body j s) as [s1|] eqn:Hb; [|done].
      rewrite option_bind_Some. apply IH; [done|]. by eapply Hbody.
Qed.

(** X21.  [initialize_input_with_cube]: on a vector of at least
    [VOLUME_SIZE] elements it returns, and leaves in each of the first
    [VOLUME_SIZE] elements the sum of [100.0f] in the cube, [10.0f]
    outside it, and the noise drawn for this element; elements beyond
    [VOLUME_SIZE] hold [10.0f].  On a shorter vector it writes outside
    the vector, which is undefined behaviour. *)
Theorem cube_initialized (input : list F) :
  (VOLUME_SIZE ≤ Z.of_nat (length input) →
   initialize_input_with_cube fadd f10 f100 noise input
   = Some (imap (λ i _,
             let base := if in_cube i then f100 else f10 in
             if bool_decide (Z.of_nat i < VOLUME_SIZE)
             then fadd base (noise (Z.of_nat i)) else base) input)) ∧
  (Z.of_nat (length input) < VOLUME_SIZE →
   initialize_input_with_cube fadd f10 f100 noise input = None).
Proof.
  unfold initialize_input_with_cube. split; intros Hlen.
  - pose proof (box_loop (λ _, f100) (fill input f10) (λ _ _ _, Some f100)
                  CUBE_START CUBE_END CUBE_START CUBE_END) as Hbox.
    cbv beta in Hbox. cbv zeta.
    assert (for_loop CUBE_START CUBE_END (λ z,
              for_loop CUBE_START CUBE_END (λ y,
                for_loop CUBE_START CUBE_END (λ x input0,
                  get_index z y x ≫= λ i, store input0 i f100)))
              (fill input f10)
            = Some (imap (λ i old,
                      if bool_decide (CUBE_START ≤ depth_of i < CUBE_END ∧
                                      CUBE_START ≤ row_of i < CUBE_END ∧
                                      CUBE_START ≤ column_of i < CUBE_END)
                      then f100 else old) (fill input f10))) as ->.
    { apply Hbox; try done. unfold fill. by rewrite length_replicate. }
    rewrite option_bind_Some.
    set (base := imap _ (fill input f10)).
    assert (length base = length input) as Hbase.
    { unfold base, fill. by rewrite length_imap, length_replicate. }
    destruct (for_loop_inv
      (λ i out, length out = length base ∧
                ∀ k x, base !! k = Some x →
                  out !! k = Some (if bool_decide (Z.of_nat k < i)
                                   then fadd x (noise (Z.of_nat k)) else x))
      0 VOLUME_SIZE
      (λ i input0, at_ input0 i ≫= λ old, store input0 i (fadd old (noise i)))
      base) as (out & -> & Hout1 & Hout2); [done| | |].
    + split; [done|]. intros k x Hk. rewrite bool_decide_eq_false_2 by lia. done.
    + intros i out Hi [Hl Ho].
      assert (Z.to_nat i < length base)%nat as Hlt by lia.
      destruct (lookup_lt_is_Some_2 base (Z.to_nat i) Hlt) as [x Hx].
      pose proof (Ho _ _ Hx) as Hox. rewrite bool_decide_eq_false_2 in Hox by lia.
      unfold at_. rewrite bool_decide_eq_true_2 by lia. rewrite Hox, option_bind_Some.
      unfold store. rewrite bool_decide_eq_true_2 by lia.
      eexists. split; [done|]. split; [by rewrite length_insert|].
      intros k y Hk. destruct (decide (k = Z.to_nat i)) as [->|Hne].
      * rewrite list_lookup_insert_eq by lia.
        rewrite bool_decide_eq_true_2 by lia. rewrite Z2Nat.id by lia. congruence.
      * rewrite list_lookup_insert_ne by done. rewrite (Ho _ _ Hk).
        f_equal. rewrite (bool_decide_ext (Z.of_nat k < i + 1) (Z.of_nat k < i));
          [done|lia].
    + f_equal. apply list_eq. intros k. rewrite list_lookup_imap.
      destruct (input !! k) as [x0|] eqn:Hk; cbn.
      * assert (k < length base)%nat as Hlt
            by (rewrite Hbase; by eapply lookup_lt_Some).
        destruct (lookup_lt_is_Some_2 base k Hlt) as [x Hx].
        rewrite (Hout2 _ _ Hx). f_equal.
        assert (x = if in_cube k then f100 else f10) as ->; [|done].
        unfold base in Hx. rewrite list_lookup_imap in Hx.
        unfold fill in Hx. rewrite lookup_replicate_2 in Hx
            by (by eapply lookup_lt_Some).
        cbn in Hx. by injection Hx as <-.
      * apply lookup_ge_None. rewrite Hout1, Hbase. by apply lookup_ge_None.
  - cbv zeta.
    destruct (for_loop CUBE_START CUBE_END _ (fill input f10)) as [base|] eqn:Hcube;
      [|done].
    rewrite option_bind_Some.
    assert (length base = length input) as Hbase.
    { unfold for_loop in Hcube.
      eapply (for_each_keeps (λ out, length out = length input)); [| |exact Hcube].
      - intros z s s' Hs.
        apply (for_each_keeps (λ out, length out = length input)); [|done].
        intros y s1 s1' Hs1.
        apply (for_each_keeps (λ out, length out = length input)); [|done].
        intros x s2 s2' Hs2. destruct (get_index z y x); [|done].
        rewrite option_bind_Some. intros Hst. apply store_length in Hst. congruence.
      - unfold fill. by rewrite length_replicate. }
    unfold for_loop.
    apply (for_each_fails_in (λ out, length out = length input)
             _ _ _ (Z.of_nat (length input))); [| | |done].
    + intros i s s' Hs. destruct (at_ s i); [|done]. rewrite option_bind_Some.
      intros Hst. apply store_length in Hst. congruence.
    + apply elem_of_seqZ. lia.
    + intros s Hs. unfold at_. rewrite bool_decide_eq_true_2 by lia.
      rewrite Nat2Z.id. rewrite (proj2 (lookup_ge_None _ _)); [done|lia].
Qed.

End Input.

Lemma cube_initialized_witness :
  initialize_input_with_cube Z.add 10 100 (λ i, i `mod` 3)
    (replicate (Z.to_nat VOLUME_SIZE) 0)
  = Some (imap (λ i _,
            let base := if in_cube i then 100 else 10 in
            if bool_decide (Z.of_nat i < VOLUME_SIZE)
            then base + Z.of_nat i `mod` 3 else base)
            (replicate (Z.to_nat VOLUME_SIZE) 0)).
Proof.
  apply (proj1 (cube_initialized Z.add 10 100 (λ i, i `mod` 3)
                  (replicate (Z.to_nat VOLUME_SIZE) 0))).
  by vm_compute.
Defined.

(** ** Tasks on different slices *)

Section Slices.
Context {F : Type}.
Variables (fzero : F) (fadd fmul : F → F → F).



End Slices.


(** ** A filter run on the pool *)




Section PoolRun.
Context {F : Type}.
Variables (fzero : F) (fadd fmul : F → F → F).
Variables (input kernel : list F).



End PoolRun.


(** ** The kernels of [main] *)

(** X24.  The kernels [main] builds by index are the ones its comments
    describe, in the order in which [operator()] walks the window: both
    have 27 coefficients; the Laplacian weighs the centre voxel by
    [6.0f], its six face neighbours by [-1.0f] and the other twenty by
    [0.0f]; the Z-axis edge detector weighs the voxel one slice up by
    [1.0f], the voxel one slice down by [-1.0f] and the others by
    [0.0f]. *)
Theorem main_kernels {F} (f0 f1 fm1 f6 : F) :
  ∃ laplacian z_edge,
    LAPLACIAN_KERNEL f0 fm1 f6 = Some laplacian ∧
    Z_EDGE_KERNEL f0 f1 fm1 = Some z_edge ∧
    length laplacian = 27%nat ∧ length z_edge = 27%nat ∧
    ∀ (k : nat) (kz kr kc : Z),
      offsets !! k = Some (kz, kr, kc) →
      laplacian !! k
      = Some (if bool_decide (kz = 0 ∧ kr = 0 ∧ kc = 0) then f6
              else if bool_decide (Z.abs kz + Z.abs kr + Z.abs kc = 1) then fm1
              else f0) ∧
      z_edge !! k
      = Some (if bool_decide (kz = 1 ∧ kr = 0 ∧ kc = 0) then f1
              else if bool_decide (kz = -1 ∧ kr = 0 ∧ kc = 0) then fm1
              else f0).
Proof.
  eexists _, _. split; [reflexivity|]. split; [reflexivity|].
  split; [reflexivity|]. split; [reflexivity|].
  intros k kz kr kc Hk.
  do 27 (destruct k as [|k]; [injection Hk as <- <- <-; by vm_compute|]).
  done.
Qed.

Lemma main_kernels_witness :
  ∃ laplacian z_edge,
    LAPLACIAN_KERNEL 0 (-1) 6 = Some laplacian ∧
    Z_EDGE_KERNEL 0 1 (-1) = Some z_edge ∧
    length laplacian = 27%nat ∧ length z_edge = 27%nat ∧
    ∀ (k : nat) (kz kr kc : Z),
      offsets !! k = Some (kz, kr, kc) →
      laplacian !! k
      = Some (if bool_decide (kz = 0 ∧ kr = 0 ∧ kc = 0) then 6
              else if bool_decide (Z.abs kz + Z.abs kr + Z.abs kc = 1) then -1
              else 0) ∧
      z_edge !! k
      = Some (if bool_decide (kz = 1 ∧ kr = 0 ∧ kc = 0) then 1
              else if bool_decide (kz = -1 ∧ kr = 0 ∧ kc = 0) then -1
              else 0).
Proof. exact (main_kernels 0 1 (-1) 6). Defined.
